(** * Qwen-Article: reference resolution and the self-correcting execution loop

    A shallow embedding of the deterministic core of the repository:
    - [app/law/utils.py]: case-number canonicalisation and augmentation;
    - [app/coder.py]: the code that is handed to the sandbox;
    - [app/preprocessor.py]: mention resolution and substitution;
    - [app/executor.py]: the bounded repair loop and its retry wrapper;
    - [run.py]: the scan of the batch state file.

    Python [str] values are sequences of Unicode code points, so they are
    modelled as lists of code points ([N]); [len], slicing and indexing
    count code points, as in Python. *)

From Stdlib Require Import String Ascii.
From Stdlib Require Import List NArith Arith Bool Lia.
Import ListNotations.

(* ================================================================== *)
(** * Python strings *)
(* ================================================================== *)

Module PyStr.

Definition char := N.
Definition pystr := list char.

(** ** Literals: UTF-8 source text decoded to code points *)

Definition cont_bits (b : N) : N := N.land b 63.

Fixpoint utf8_decode (bs : list N) : pystr :=
  match bs with
  | [] => []
  | b0 :: r0 =>
    if (b0 <? 128)%N then b0 :: utf8_decode r0
    else match r0 with
    | [] => [b0]
    | b1 :: r1 =>
      if (b0 <? 224)%N
      then (N.land b0 31 * 64 + cont_bits b1)%N :: utf8_decode r1
      else match r1 with
      | [] => [b0; b1]
      | b2 :: r2 =>
        if (b0 <? 240)%N
        then (N.land b0 15 * 4096 + cont_bits b1 * 64 + cont_bits b2)%N
               :: utf8_decode r2
        else match r2 with
        | [] => [b0; b1; b2]
        | b3 :: r3 =>
          (N.land b0 7 * 262144 + cont_bits b1 * 4096
             + cont_bits b2 * 64 + cont_bits b3)%N :: utf8_decode r3
        end
      end
    end
  end.

(** [u "..."] is the Python string written between the quotes. *)
Definition u (s : string) : pystr :=
  utf8_decode (List.map N_of_ascii (list_ascii_of_string s)).

Definition nl : char := 10%N.

(** ** Comparison *)

Fixpoint eqb (a b : pystr) : bool :=
  match a, b with
  | [], [] => true
  | x :: a', y :: b' => (x =? y)%N && eqb a' b'
  | _, _ => false
  end.

Definition mem (x : pystr) (l : list pystr) : bool := existsb (eqb x) l.

(** [startswith s p] is [s.startswith(p)]. *)
Fixpoint startswith (s p : pystr) {struct p} : bool :=
  match p, s with
  | [], _ => true
  | y :: p', x :: s' => (x =? y)%N && startswith s' p'
  | _ :: _, [] => false
  end.


(** [contains p s] is [p in s]. *)
Fixpoint contains (p s : pystr) : bool :=
  startswith s p || match s with [] => false | _ :: s' => contains p s' end.

(** [has c s] is [c in s] for a one-character [c]. *)
Definition has (c : char) (s : pystr) : bool := existsb (N.eqb c) s.

(** ** Indexing and slicing (non-negative indices) *)

(** [index c s] is [s.index(c)]; [None] stands for ValueError. *)
Fixpoint index (c : char) (s : pystr) : option nat :=
  match s with
  | [] => None
  | x :: s' => if (x =? c)%N then Some 0
               else option_map S (index c s')
  end.

(** [rindex c s] is [s.rindex(c)]. *)
Fixpoint rindex (c : char) (s : pystr) : option nat :=
  match s with
  | [] => None
  | x :: s' => match rindex c s' with
               | Some i => Some (S i)
               | None => if (x =? c)%N then Some 0 else None
               end
  end.

(** [slice a b s] is [s[a:b]], [upto b s] is [s[:b]], [from a s] is [s[a:]]. *)
Definition slice (a b : nat) (s : pystr) : pystr := firstn (b - a) (skipn a s).
Definition upto (b : nat) (s : pystr) : pystr := firstn b s.
Definition from (a : nat) (s : pystr) : pystr := skipn a s.



(** ** str.replace *)

Definition budget_left (b : option nat) : bool :=
  match b with Some 0 => false | _ => true end.

Definition budget_dec (b : option nat) : option nat := option_map pred b.

(** Replacement of a non-empty [old]: scan left to right; at an occurrence
    emit [new] and skip the rest of the occurrence ([skip] characters still
    to drop), so occurrences never overlap. [b] is the optional [count]. *)
Fixpoint replace_go (old new : pystr) (b : option nat) (skip : nat)
    (s : pystr) : pystr :=
  match s with
  | [] => []
  | c :: s' =>
    match skip with
    | S k => replace_go old new b k s'
    | 0 =>
      if budget_left b && startswith s old
      then new ++ replace_go old new (budget_dec b) (length old - 1) s'
      else c :: replace_go old new b 0 s'
    end
  end.

(** Replacement of the empty string: [new] goes before every character and
    at the end, as long as the count allows. *)
Fixpoint replace_empty (new : pystr) (b : option nat) (s : pystr) : pystr :=
  if budget_left b
  then new ++ match s with
              | [] => []
              | c :: s' => c :: replace_empty new (budget_dec b) s'
              end
  else s.

(** [replace_count old new b s] is [s.replace(old, new, count)], [b = None]
    when no count is given. *)
Definition replace_count (old new : pystr) (b : option nat) (s : pystr)
    : pystr :=
  match old with
  | [] => replace_empty new b s
  | _ :: _ => replace_go old new b 0 s
  end.

(** [replace old new s] is [s.replace(old, new)]. *)
Definition replace (old new : pystr) (s : pystr) : pystr :=
  replace_count old new None s.

(** [remove old s] is [s.replace(old, '')]. *)
Definition remove (old : pystr) (s : pystr) : pystr := replace old [] s.

(** ** Whitespace, split and join *)

(** The characters [str.strip()] removes: those with [str.isspace()]. *)
Definition isspace (c : char) : bool :=
  ((9 <=? c) && (c <=? 13) || (28 <=? c) && (c <=? 32)
   || (c =? 133) || (c =? 160) || (c =? 5760)
   || (8192 <=? c) && (c <=? 8202)
   || (c =? 8232) || (c =? 8233) || (c =? 8239) || (c =? 8287)
   || (c =? 12288))%N.

Fixpoint lstrip (s : pystr) : pystr :=
  match s with
  | c :: s' => if isspace c then lstrip s' else s
  | [] => []
  end.

Definition rstrip (s : pystr) : pystr := rev (lstrip (rev s)).

(** [strip s] is [s.strip()]. *)
Definition strip (s : pystr) : pystr := rstrip (lstrip s).

(** [split_nl s] is [s.split('\n')]: never empty, one more piece than there
    are newlines. *)
Fixpoint split_nl (s : pystr) : list pystr :=
  match s with
  | [] => [[]]
  | c :: s' =>
    if (c =? nl)%N then [] :: split_nl s'
    else match split_nl s' with
         | l :: ls => (c :: l) :: ls
         | [] => [[c]]
         end
  end.

(** [join_nl ls] is ['\n'.join(ls)]. *)
Fixpoint join_nl (ls : list pystr) : pystr :=
  match ls with
  | [] => []
  | [l] => l
  | l :: ls' => l ++ nl :: join_nl ls'
  end.

(** [list(set(l))]: the distinct elements. Python leaves the order of a set
    unspecified; the statements below only speak of membership. *)
Fixpoint distinct (l : list pystr) : list pystr :=
  match l with
  | [] => []
  | x :: l' => if mem x l' then distinct l' else x :: distinct l'
  end.

(** ** Vocabulary for the statements *)

(** In [pre ++ old ++ post] the occurrence of [old] after [pre] is the
    first one: no occurrence starts inside [pre]. *)
Definition first_at (old pre post : pystr) : Prop :=
  forall k, k < length pre ->
    startswith (skipn k (pre ++ old ++ post)) old = false.

End PyStr.

(* ================================================================== *)
(** * Regular expressions: a backtracking matcher *)
(* ================================================================== *)

(** The patterns of the repository are matched by Python's [re], a
    backtracking matcher: alternatives are tried in priority order (a greedy
    repetition tries one more iteration first, a lazy one tries to stop
    first) and the first complete match wins. The matcher below is written
    in continuation-passing style: [k] is what remains to be matched. *)

Module Re.
Import PyStr.

Inductive regex : Type :=
| Eps
| Chr (c : char)                  (* a literal character *)
| Any                             (* [.]: any character but a newline *)
| Cls (p : char -> bool)          (* a character class *)
| Bol                             (* [^] (no MULTILINE): start of the string *)
| Seq (r1 r2 : regex)
| Rep (r : regex) (lo : nat) (hi : option nat) (greedy : bool)
| Grp (n : nat) (r : regex)       (* capturing group number [n] *)
| Ref (n : nat).                  (* backreference [\n] *)

Definition Star (r : regex) : regex := Rep r 0 None true.
Definition Plus (r : regex) : regex := Rep r 1 None true.

(** A literal string. *)
Fixpoint Lit (s : pystr) : regex :=
  match s with
  | [] => Eps
  | c :: s' => Seq (Chr c) (Lit s')
  end.

(** Captured groups, most recent binding first. *)
Definition caps := list (nat * pystr).

Fixpoint group (n : nat) (cs : caps) : option pystr :=
  match cs with
  | [] => None
  | (j, t) :: cs' => if j =? n then Some t else group n cs'
  end.

(** A continuation receives the position reached, the text left and the
    groups; a match yields its end position and groups. *)
Definition cont := nat -> pystr -> caps -> option (nat * caps).

Definition may_repeat (cnt : nat) (hi : option nat) : bool :=
  match hi with
  | None => true
  | Some h => cnt <? h
  end.

Definition orelse (a : option (nat * caps)) (b : unit -> option (nat * caps))
    : option (nat * caps) :=
  match a with
  | Some x => Some x
  | None => b tt
  end.

(** The repetition loop: [cnt] iterations done so far. An iteration that
    consumes nothing is not repeated (every body below consumes a
    character), so [fuel] one larger than the text left never runs out. *)
Fixpoint rep_loop (body : nat -> pystr -> caps -> cont -> option (nat * caps))
    (lo : nat) (hi : option nat) (greedy : bool) (k : cont)
    (fuel cnt i : nat) (s : pystr) (cs : caps) : option (nat * caps) :=
  match fuel with
  | 0 => None
  | S fuel' =>
    let more (_ : unit) :=
      if may_repeat cnt hi
      then body i s cs (fun i' s' cs' =>
             if i' =? i then None
             else rep_loop body lo hi greedy k fuel' (S cnt) i' s' cs')
      else None in
    let stop (_ : unit) := if lo <=? cnt then k i s cs else None in
    if greedy then orelse (more tt) stop else orelse (stop tt) more
  end.

(** [m r i s cs k]: match [r] at position [i], where [s] is the text from
    [i] on, then continue with [k]. *)
Fixpoint m (r : regex) (i : nat) (s : pystr) (cs : caps) (k : cont)
    {struct r} : option (nat * caps) :=
  match r with
  | Eps => k i s cs
  | Chr c =>
    match s with
    | x :: s' => if (x =? c)%N then k (S i) s' cs else None
    | [] => None
    end
  | Any =>
    match s with
    | x :: s' => if (x =? nl)%N then None else k (S i) s' cs
    | [] => None
    end
  | Cls p =>
    match s with
    | x :: s' => if p x then k (S i) s' cs else None
    | [] => None
    end
  | Bol => if i =? 0 then k i s cs else None
  | Seq r1 r2 => m r1 i s cs (fun i' s' cs' => m r2 i' s' cs' k)
  | Rep r' lo hi greedy =>
    rep_loop (m r') lo hi greedy k (S (length s)) 0 i s cs
  | Grp n r' =>
    m r' i s cs (fun i' s' cs' => k i' s' ((n, firstn (i' - i) s) :: cs'))
  | Ref n =>
    match group n cs with
    | Some t =>
      if startswith s t then k (i + length t) (skipn (length t) s) cs
      else None
    | None => None
    end
  end.

(** The final continuation. After an empty match, [re.sub] looks for the
    next match from the same position but refuses an empty one there
    ([must_advance]). *)
Definition accept (start : nat) (must_advance : bool) : cont :=
  fun i _ cs =>
    if must_advance && (i =? start) then None else Some (i, cs).

(** A match found by scanning: where it starts, where it ends, its groups. *)
Definition found := (nat * nat * caps)%type.

(** Leftmost match at or after position [i]. *)
Fixpoint search_at (r : regex) (i : nat) (s : pystr) (adv : bool)
    : option found :=
  match m r i s [] (accept i adv) with
  | Some (e, cs) => Some (i, e, cs)
  | None =>
    match s with
    | [] => None
    | _ :: s' => search_at r (S i) s' false
    end
  end.




(** Replacement templates: literal text and group references. *)
Inductive ritem : Type :=
| RLit (t : pystr)
| RGrp (n : nat).

Definition expand (repl : list ritem) (cs : caps) : pystr :=
  flat_map (fun it =>
    match it with
    | RLit t => t
    | RGrp n => match group n cs with Some t => t | None => [] end
    end) repl.

(** [re.sub]: replace the non-overlapping matches, left to right. *)
Fixpoint sub_go (fuel : nat) (r : regex) (repl : list ritem) (i : nat)
    (s : pystr) (adv : bool) : pystr :=
  match fuel with
  | 0 => s
  | S fuel' =>
    match search_at r i s adv with
    | None => s
    | Some (b, e, cs) =>
      firstn (b - i) s ++ expand repl cs
        ++ sub_go fuel' r repl e (skipn (e - i) s) (e =? b)
    end
  end.

Definition sub (r : regex) (repl : list ritem) (s : pystr) : pystr :=
  sub_go (2 * length s + 2) r repl 0 s false.

(** ** Vocabulary for the statements *)

(** A pattern that consumes one character satisfying [p]. *)
Definition one_char (p : char -> bool) (i : nat) (s : pystr) (cs : caps)
    (k : cont) : option (nat * caps) :=
  match s with
  | x :: s' => if p x then k (S i) s' cs else None
  | [] => None
  end.

(** Greedy repetition of a one-character pattern, without fuel: try one more
    character first, then stop here. *)
Fixpoint greedy (p : char -> bool) (lo : nat) (k : cont) (cnt i : nat)
    (s : pystr) (cs : caps) : option (nat * caps) :=
  let stop (_ : unit) := if lo <=? cnt then k i s cs else None in
  match s with
  | x :: s' =>
    if p x then orelse (greedy p lo k (S cnt) (S i) s' cs) stop else stop tt
  | [] => stop tt
  end.

(** The length of the leading run of characters satisfying [p]. *)
Fixpoint span (p : char -> bool) (s : pystr) : nat :=
  match s with
  | x :: s' => if p x then S (span p s') else 0
  | [] => 0
  end.

End Re.

(* ================================================================== *)
(** * app/law/utils.py: case numbers *)
(* ================================================================== *)

Module CaseNum.
Import PyStr Re.

(** ** Character classes of the patterns *)





Definition lparen : char := 40%N.   (* ( *)
Definition rparen : char := 41%N.   (* ) *)

(** ** preprocess_case_num *)

Definition brackets : list pystr :=
  [u "["; u "]"; u "【"; u "】"; u "（"; u "）"; u "{"; u "}"].

(** [re.sub(r'\(+', '(', s)] and [re.sub(r'\)+', ')', s)] *)
Definition squeeze (c : char) (s : pystr) : pystr :=
  sub (Plus (Chr c)) [RLit [c]] s.

(** The last step of [preprocess_case_num]: "keep one pair of brackets". *)
Definition one_pair (case_num : pystr) : pystr :=
  if contains [lparen] case_num && contains [rparen] case_num then
    match index lparen case_num, rindex rparen case_num with
    | Some first_open, Some last_close =>
      upto first_open case_num ++ [lparen]
        ++ slice (first_open + 1) last_close case_num ++ [rparen]
        ++ from (last_close + 1) case_num
    | _, _ => case_num
    end
  else if contains [lparen] case_num then remove [lparen] case_num
  else if contains [rparen] case_num then remove [rparen] case_num
  else case_num.

(** The removals at the start of [preprocess_case_num]. *)
Definition strip_noise (case_num : pystr) : pystr :=
  let case_num := remove (u " ") case_num in
  let case_num := remove (u ",") (remove (u "，") case_num) in
  let case_num := remove (u "判") (remove (u "判决") case_num) in
  let case_num := remove (u "年") case_num in
  fold_left (fun acc bracket => remove bracket acc) brackets case_num.

Definition preprocess_case_num (case_num : pystr) : pystr :=
  let case_num := strip_noise case_num in
  let case_num := squeeze lparen case_num in
  let case_num := squeeze rparen case_num in
  one_pair case_num.

(** ** correct_case_num *)





(** ** preprocess_xzgxf_case_num *)

Definition preprocess_xzgxf_case_num (case_num : pystr) : pystr :=
  let case_num := remove (u " ") case_num in
  let case_num := replace (u "]") (u "）") (replace (u "[") (u "（") case_num) in
  let case_num := replace (u "】") (u "）") (replace (u "【") (u "（") case_num) in
  replace (u ")") (u "）") (replace (u "(") (u "（") case_num).

(** ** extract_case_num *)




(** ** merge_adjacent_chars: [re.sub(r'(.)\1+', r'\1', s)] *)


(** ** augment_case_num *)



(** ** Vocabulary for the statements *)

Definition is_char (c : char) (x : char) : bool := (x =? c)%N.

(** Where the first run of [c] starts and how long it is. *)
Fixpoint first_run (c : char) (s : pystr) : option (nat * nat) :=
  match s with
  | [] => None
  | x :: s' =>
    if (x =? c)%N then Some (0, span (is_char c) s)
    else match first_run c s' with
         | Some (p, n) => Some (S p, n)
         | None => None
         end
  end.

(** The characters [strip_noise] removes. *)
Definition noise : pystr := u " ，,判年[]【】（）{}".

Definition clean (s : pystr) : Prop := forall x, In x noise -> ~ In x s.

Definition starts_with_char (c : char) (s : pystr) : bool :=
  match s with y :: _ => (y =? c)%N | [] => false end.

(** Every run of [c] cut down to one [c]. *)
Fixpoint dedup_run (c : char) (s : pystr) : pystr :=
  match s with
  | [] => []
  | x :: s' =>
    if (x =? c)%N && starts_with_char c s' then dedup_run c s'
    else x :: dedup_run c s'
  end.

(** Two adjacent [c] somewhere in [s]. *)
Fixpoint adjacent (c : char) (s : pystr) : bool :=
  match s with
  | x :: s' => (x =? c)%N && starts_with_char c s' || adjacent c s'
  | [] => false
  end.

(** Nothing left to normalise. *)
Definition normal (s : pystr) : Prop :=
  clean s /\ adjacent lparen s = false /\ adjacent rparen s = false
  /\ one_pair s = s.

(** What [preprocess_xzgxf_case_num] does to one character that is not a
    space. *)
Definition widen (x : char) : char :=
  let swap (c d x : char) := if (x =? c)%N then d else x in
  swap 41%N 65289%N (swap 40%N 65288%N (swap 12305%N 65289%N
    (swap 12304%N 65288%N (swap 93%N 65289%N (swap 91%N 65288%N x))))).

Definition not_space (x : char) : bool := negb (x =? 32)%N.







End CaseNum.


(* ================================================================== *)
(** * app/coder.py: what is handed to the sandbox *)
(* ================================================================== *)

Module Coder.
Import PyStr Re.

Definition IMPORT_LINE : pystr := u "from app.law.tools import *".

(** [CODE_TEMPLATE.format(code=code)] *)
Definition CODE_TEMPLATE (code : pystr) : pystr :=
  [nl] ++ IMPORT_LINE ++ [nl; nl] ++ code ++ [nl].

(** [print\(.*K.*\)] for a keyword [K] *)
Definition print_pattern (keyword : pystr) : regex :=
  Seq (Lit (u "print(")) (Seq (Star Any) (Seq (Lit keyword)
    (Seq (Star Any) (Chr 41%N)))).

Definition PASS : list ritem := [RLit (u "pass")].

(** One iteration of the loop of [replace_print_with_pass]: the value left
    in [lines[i]]. Every test and every substitution reads [line], the
    original text of the line, and assigns [lines[i]]. *)
Definition rewrite_line (line : pystr) : pystr :=
  let cur := line in
  let cur :=
    if contains (u "print(legal_doc_list)") line
    then replace (u "print(legal_doc_list)") (u "pass") line else cur in
  let cur :=
    if contains (u "print") line && contains (u "legal_doc_list") line
    then sub (print_pattern (u "legal_doc_list")) PASS line else cur in
  let cur :=
    if contains (u "print") line && contains (u "案件列表") line
    then sub (print_pattern (u "案件列表")) PASS line else cur in
  let cur :=
    if contains (u "print") line && contains (u "legal_docs") line
    then sub (print_pattern (u "legal_docs")) PASS line else cur in
  if contains (u "print") line && contains (u "列表") line
  then if contains (u "公司") line then cur
       else sub (print_pattern (u "列表")) PASS line
  else cur.

Definition replace_print_with_pass (text : pystr) : pystr :=
  join_nl (List.map rewrite_line (split_nl text)).

(** ** textwrap.dedent (standard library), line by line

    Lines made of spaces and tabs only are emptied; the margin is the
    longest common leading run of spaces and tabs of the other non-empty
    lines; a non-empty margin is removed from the lines that start with
    it. *)

Definition is_blank (c : char) : bool := ((c =? 32) || (c =? 9))%N.

Definition whitespace_only (line : pystr) : bool :=
  match line with
  | [] => false
  | _ :: _ => forallb is_blank line
  end.

Fixpoint indent_of (line : pystr) : pystr :=
  match line with
  | c :: line' => if is_blank c then c :: indent_of line' else []
  | [] => []
  end.

Fixpoint common_prefix (a b : pystr) : pystr :=
  match a, b with
  | x :: a', y :: b' => if (x =? y)%N then x :: common_prefix a' b' else []
  | _, _ => []
  end.

Definition margin_step (margin : option pystr) (line : pystr)
    : option pystr :=
  match line with
  | [] => margin
  | _ :: _ =>
    let indent := indent_of line in
    match margin with
    | None => Some indent
    | Some mg =>
      if startswith indent mg then Some mg
      else if startswith mg indent then Some indent
      else Some (common_prefix mg indent)
    end
  end.

Definition strip_margin (mg line : pystr) : pystr :=
  if startswith line mg then skipn (length mg) line else line.

Definition dedent (text : pystr) : pystr :=
  let lines :=
    List.map (fun l => if whitespace_only l then [] else l) (split_nl text) in
  match fold_left margin_step lines None with
  | Some (c :: mg) => join_nl (List.map (strip_margin (c :: mg)) lines)
  | _ => join_nl lines
  end.

(** ** Coder.run_code: the code passed to [_execute_code] *)

Definition submitted (code : pystr) : pystr :=
  let code :=
    if negb (startswith (strip code) IMPORT_LINE) then CODE_TEMPLATE code
    else code in
  let code := replace_print_with_pass code in
  dedent code.

End Coder.

(* ================================================================== *)
(** * app/preprocessor.py: resolving and substituting mentions *)
(* ================================================================== *)

Module Preprocessor.
Import PyStr.

(** A recognised mention: a dict with the keys [type] and [content], to
    which resolution may add [standardized] and [found] (always [True]
    when present). *)
Record NamedEntity : Type := {
  ne_type : pystr;
  content : pystr;
  standardized : option pystr;   (* [None]: the key is absent *)
  found : bool                   (* whether the key is present *)
}.

(** A mention as [filter_entities] leaves it: two keys only. *)
Definition mention (t c : pystr) : NamedEntity :=
  {| ne_type := t; content := c; standardized := None; found := false |}.

Definition same_identifier (a b : NamedEntity) : bool :=
  eqb (ne_type a) (ne_type b) && eqb (content a) (content b).

Fixpoint remove_duplicates_from (seen unique : list NamedEntity)
    (filtered_entities : list NamedEntity) : list NamedEntity :=
  match filtered_entities with
  | [] => unique
  | entity :: rest =>
    if existsb (same_identifier entity) seen
    then remove_duplicates_from seen unique rest
    else remove_duplicates_from (entity :: seen) (unique ++ [entity]) rest
  end.

Definition remove_duplicates (filtered_entities : list NamedEntity)
    : list NamedEntity :=
  remove_duplicates_from [] [] filtered_entities.

(** What the cascading lookup of [query_named_entity] ends with: the type
    it leaves on the mention and, on a hit, the authoritative name. *)
Record Lookup : Type := {
  new_type : pystr;
  hit : option pystr
}.

Section RunOnce.

(** The registry service and the name-normalisation service, seen from
    [query_named_entity]: a function of the mention's type and content. *)
Variable remote : pystr -> pystr -> Lookup.

(** [query_named_entity] mutates the mention: it may correct its type and,
    on a hit, sets [standardized] and [found]. *)
Definition query_named_entity (e : NamedEntity) : NamedEntity :=
  let r := remote (ne_type e) (content e) in
  match hit r with
  | Some name =>
    {| ne_type := new_type r; content := content e;
       standardized := Some name; found := true |}
  | None =>
    {| ne_type := new_type r; content := content e;
       standardized := standardized e; found := found e |}
  end.

(** The first loop of [_run_once]. Returns the mentions after the loop and
    the contents that were looked up, in order. *)
Fixpoint resolve (queried_set : list pystr) (named_entities : list NamedEntity)
    : list NamedEntity * list pystr :=
  match named_entities with
  | [] => ([], [])
  | named_entity :: rest =>
    if mem (content named_entity) queried_set
    then
      let (out, looked_up) := resolve queried_set rest in
      (named_entity :: out, looked_up)
    else
      let initialised :=
        {| ne_type := ne_type named_entity; content := content named_entity;
           standardized := Some (content named_entity);
           found := found named_entity |} in
      let (out, looked_up) :=
        resolve (content named_entity :: queried_set) rest in
      (query_named_entity initialised :: out,
       content named_entity :: looked_up)
  end.

(** The [NER] dict: the last assignment to a key wins. *)
Definition dict := list (pystr * pystr).

Fixpoint dict_set (k v : pystr) (d : dict) : dict :=
  match d with
  | [] => [(k, v)]
  | (k', v') :: d' =>
    if eqb k' k then (k, v) :: d' else (k', v') :: dict_set k v d'
  end.

(** The second loop of [_run_once]. *)
Fixpoint substitute (question : pystr) (NER : dict)
    (named_entities : list NamedEntity) : pystr * dict :=
  match named_entities with
  | [] => (question, NER)
  | named_entity :: rest =>
    match standardized named_entity with
    | None => substitute question NER rest
    | Some std =>
      let NER :=
        if found named_entity then dict_set (ne_type named_entity) std NER
        else NER in
      substitute (replace_count (content named_entity) std (Some 1) question)
                 NER rest
    end
  end.

(** [_run_once] after recognition and filtering: the rewritten question and
    the [NER] dict that are formatted into the result. *)
Definition run_once (question : pystr) (named_entities : list NamedEntity)
    : pystr * dict :=
  substitute question [] (fst (resolve [] named_entities)).

End RunOnce.

(** ** Vocabulary for the statements *)

(** What one mention does to the question in the second loop. *)
Definition substitute_step (question : pystr) (named_entity : NamedEntity)
    : pystr :=
  match standardized named_entity with
  | None => question
  | Some std => replace_count (content named_entity) std (Some 1) question
  end.

End Preprocessor.

(* ================================================================== *)
(** * run.py: the scan of the batch state file *)
(* ================================================================== *)

Module Batch.
Import PyStr.

(** One line of the state file. *)
Record Row : Type := {
  id : N;
  question : pystr;
  answer : pystr
}.

Definition ERROR_MARKER : pystr := u "处理出错".

Definition truthy (s : pystr) : bool :=
  match s with [] => false | _ :: _ => true end.

(** The condition of [process_questions]. *)
Definition needs_processing (data : Row) : bool :=
  eqb (answer data) []
  || (truthy (answer data) && startswith (answer data) ERROR_MARKER).

(** The tasks [process_questions] creates, in file order: the arguments of
    [handle_question]. *)
Fixpoint process_questions (file : list Row) : list (N * pystr) :=
  match file with
  | [] => []
  | data :: rest =>
    if needs_processing data
    then (id data, question data) :: process_questions rest
    else process_questions rest
  end.

(** What the state-file contract asks for: an empty answer, or a recorded
    error string. *)
Definition reprocess (data : Row) : Prop :=
  answer data = [] \/ startswith (answer data) ERROR_MARKER = true.

End Batch.

(* ================================================================== *)
(** * app/executor.py: the execution loop *)
(* ================================================================== *)

Module Executor.
Import PyStr.

(** The dict returned by [Coder.run_code]. *)
Record RunResult : Type := {
  success : bool;
  result : pystr;
  ename : pystr;
  evalue : pystr;
  traceback : pystr
}.

Inductive exn : Type :=
| IndentationError              (* the class defined in executor.py *)
| ServiceError (code : nat)     (* raised by the completion service *)
| RetryError.                   (* tenacity's, when the attempts are spent *)

(** The two requests sent to the completion service. *)
Inductive Prompt : Type :=
| TaskPrompt                                         (* fresh synthesis *)
| DebugPrompt (previous_impl : pystr) (error : RunResult).   (* repair *)

Inductive Event : Type :=
| Completion (p : Prompt)
| Execution (code : pystr) (r : RunResult).

Record Task : Type := {
  task_result : option pystr;
  task_code : option pystr
}.

Record SolutionSpace : Type := {
  best_result : pystr;
  best_code : pystr
}.

(** Modelled from the spec: [qwergpt.solution_space.SolutionSpace] is not
    part of the sources. Section 4.4: better is [len(new) > len(current)],
    ties keep the existing value. *)
Definition set_result (text : pystr) (sp : SolutionSpace) : SolutionSpace :=
  if length (best_result sp) <? length text
  then {| best_result := text; best_code := best_code sp |}
  else sp.

Definition set_executed_code (code : pystr) (sp : SolutionSpace)
    : SolutionSpace :=
  {| best_result := best_result sp; best_code := code |}.

(** The executor of one question, with what it has done so far. *)
Record State : Type := {
  latest_output : pystr;            (* [self._latest_output] *)
  solution_space : SolutionSpace;   (* [self._solution_space] *)
  finished : nat;                   (* calls of [plan.finish_task] *)
  log : list Event                  (* newest first *)
}.

Definition initial : State :=
  {| latest_output := []; solution_space := {| best_result := []; best_code := [] |};
     finished := 0; log := [] |}.

Definition is_execution (e : Event) : bool :=
  match e with Execution _ _ => true | Completion _ => false end.

Definition is_completion (e : Event) : bool := negb (is_execution e).

(** Sandbox executions and completion requests made so far. *)
Definition executions (st : State) : nat :=
  length (filter is_execution (log st)).

Definition completions (st : State) : nat :=
  length (filter is_completion (log st)).

(** The events in the order they happened. *)
Definition trace (st : State) : list Event := rev (log st).

Definition record (e : Event) (st : State) : State :=
  {| latest_output := latest_output st; solution_space := solution_space st;
     finished := finished st; log := e :: log st |}.

Inductive Outcome : Type :=
| Returned
| Raised (e : exn).

Section Loop.

(** The collaborators: the completion service (request number, prompt),
    [qwergpt.utils.parse_python], the sandbox behind [Coder._execute_code]
    (execution number, code) and [qwergpt.utils.should_retry]. *)
Variable acomplete : nat -> Prompt -> exn + pystr.
Variable parse_python : pystr -> pystr.
Variable execute_code : nat -> pystr -> RunResult.
Variable should_retry : exn -> bool.

(** [await self._coder.run_code(code, preserve_context=False)] *)
Definition run_code (st : State) (code : pystr) : RunResult :=
  execute_code (executions st) (Coder.submitted code).

(** The fast-fail test of the loop. *)
Definition fast_fail (r : RunResult) : bool :=
  eqb (ename r) (u "RunCodeException")
  && contains (u "IndentationError") (evalue r).

(** "为了保证步骤分": keep the longest output seen. *)
Definition promote (st : State) (code : pystr) (r : RunResult) : State :=
  if length (latest_output st) <? length (result r)
  then {| latest_output := result r;
          solution_space :=
            set_executed_code code (set_result (result r) (solution_space st));
          finished := finished st; log := log st |}
  else st.

(** [for _ in range(n)] of [exec_task], entered with the last completion
    [message]. *)
Fixpoint repair_loop (n : nat) (message : pystr) (st : State) (task : Task)
    : Outcome * State * Task :=
  match n with
  | 0 => (Returned, st, task)
  | S n' =>
    let code := parse_python message in
    let run_result := run_code st code in
    let st := record (Execution code run_result) st in
    if fast_fail run_result then (Raised IndentationError, st, task)
    else
      let st := promote st code run_result in
      if success run_result
      then (Returned, st,
            {| task_result := Some (result run_result);
               task_code := Some code |})
      else
        let prompt := DebugPrompt code run_result in
        let reply := acomplete (completions st) prompt in
        let st := record (Completion prompt) st in
        match reply with
        | inl e => (Raised e, st, task)
        | inr message' => repair_loop n' message' st task
        end
  end.

Definition finish_task (st : State) : State :=
  {| latest_output := latest_output st; solution_space := solution_space st;
     finished := S (finished st); log := log st |}.

(** The body of [exec_task], one invocation. *)
Definition exec_task_once (st : State) (task : Task)
    : Outcome * State * Task :=
  let reply := acomplete (completions st) TaskPrompt in
  let st := record (Completion TaskPrompt) st in
  match reply with
  | inl e => (Raised e, st, task)
  | inr message =>
    match repair_loop 4 message st task with
    | (Returned, st', task') => (Returned, finish_task st', task')
    | (Raised e, st', task') => (Raised e, st', task')
    end
  end.

(** [@retry(stop=stop_after_attempt(n), retry=retry_if_exception(should_retry))]:
    an exception the predicate rejects is raised as it is; one it accepts
    starts the next attempt, or ends in [RetryError] after the last. *)
Fixpoint retrying (attempts : nat) (st : State) (task : Task)
    : Outcome * State * Task :=
  match attempts with
  | 0 => (Raised RetryError, st, task)
  | S attempts' =>
    match exec_task_once st task with
    | (Returned, st', task') => (Returned, st', task')
    | (Raised e, st', task') =>
      if should_retry e then retrying attempts' st' task'
      else (Raised e, st', task')
    end
  end.

Definition exec_task (st : State) (task : Task) : Outcome * State * Task :=
  retrying 3 st task.

(** [Executor.run]: the tasks of the plan in order; an exception ends it. *)
Fixpoint run (st : State) (tasks : list Task)
    : Outcome * State * list Task :=
  match tasks with
  | [] => (Returned, st, [])
  | task :: rest =>
    match exec_task st task with
    | (Returned, st', task') =>
      match run st' rest with
      | (o, st'', rest') => (o, st'', task' :: rest')
      end
    | (Raised e, st', task') => (Raised e, st', task' :: rest)
    end
  end.

End Loop.

(** Modelled from the spec: [qwergpt.utils.should_retry] is not part of the
    sources. Section 5: the predicate tells transient failures from terminal
    ones; section 4.3: the fast-fail exception forces a fresh synthesis.
    Terminal service errors are given the code 0 here. *)
Definition should_retry_spec (e : exn) : bool :=
  match e with
  | IndentationError => true
  | ServiceError 0 => false
  | ServiceError (S _) => true
  | RetryError => false
  end.

(** ** Vocabulary for the statements *)

Definition outcome_of {T : Type} (x : Outcome * State * T) : Outcome :=
  fst (fst x).
Definition state_of {T : Type} (x : Outcome * State * T) : State :=
  snd (fst x).
Definition task_of {T : Type} (x : Outcome * State * T) : T := snd x.

Definition unset : Task := {| task_result := None; task_code := None |}.

(** An attempt that fails without tripping the fast-fail test. *)
Definition fails (r : RunResult) : Prop :=
  success r = false /\ fast_fail r = false.

(** The two copies of the best output agree. *)
Definition synced (st : State) : Prop :=
  best_result (solution_space st) = latest_output st.

(** Neither copy of the best output got shorter. *)
Definition no_shorter (st st' : State) : Prop :=
  length (latest_output st) <= length (latest_output st')
  /\ length (best_result (solution_space st))
     <= length (best_result (solution_space st')).

(** The newest event is a completion request. *)
Definition head_completion (l : list Event) : Prop :=
  match l with
  | Completion _ :: _ => True
  | _ => False
  end.

(** A plain failure and a fast-failed attempt, both with some output. *)
Definition plain_failure : RunResult :=
  {| success := false; result := u "partial output";
     ename := u "NameError"; evalue := u "name 'x' is not defined";
     traceback := [] |}.

Definition misindented : RunResult :=
  {| success := false; result := u "partial output";
     ename := u "RunCodeException";
     evalue := u "IndentationError: unexpected indent";
     traceback := [] |}.

(** On a log (newest first): the event that follows a fast-failed
    execution, if any, is a fresh synthesis request. *)
Definition fresh_after_fast_fail (l : list Event) : Prop :=
  forall newer e code r older,
    l = newer ++ e :: Execution code r :: older ->
    fast_fail r = true -> e = Completion TaskPrompt.

End Executor.

(* ================================================================== *)
(** * Properties *)
(* ================================================================== *)

(** ** Strings *)

Module PyStrFacts.
Import PyStr.

Lemma eqb_eq (a b : pystr) : eqb a b = true <-> a = b.
Proof.
  revert b; induction a as [|x a IH]; intros [|y b]; simpl;
    try (split; (discriminate || reflexivity || congruence)).
  rewrite andb_true_iff, N.eqb_eq, IH.
  split; [intros [-> ->]; reflexivity | intros [= -> ->]; auto].
Qed.

Lemma eqb_refl (a : pystr) : eqb a a = true.
Proof. apply eqb_eq; reflexivity. Qed.

Lemma eqb_neq (a b : pystr) : eqb a b = false <-> a <> b.
Proof.
  rewrite <- eqb_eq. destruct (eqb a b); split; congruence.
Qed.

Lemma mem_In (x : pystr) (l : list pystr) : mem x l = true <-> In x l.
Proof.
  unfold mem. rewrite existsb_exists. split.
  - intros (y & Hy & E). apply eqb_eq in E. subst. exact Hy.
  - intros H. exists x. split; [exact H | apply eqb_refl].
Qed.

Lemma startswith_app (p s : pystr) : startswith (p ++ s) p = true.
Proof.
  induction p as [|c p IH]; simpl; [reflexivity|].
  rewrite N.eqb_refl. exact IH.
Qed.

Lemma startswith_prefix (s p : pystr) :
  startswith s p = true <-> exists t, s = p ++ t.
Proof.
  revert s; induction p as [|c p IH]; intros s; simpl.
  - split; [intros _; exists s; reflexivity | reflexivity].
  - destruct s as [|x s].
    + split; [discriminate | intros [t E]; discriminate].
    + rewrite andb_true_iff, N.eqb_eq, IH. split.
      * intros [-> [t ->]]. exists t. reflexivity.
      * intros [t [= -> ->]]. split; [reflexivity | exists t; reflexivity].
Qed.

Lemma distinct_In (x : pystr) (l : list pystr) :
  In x (distinct l) <-> In x l.
Proof.
  induction l as [|y l IH]; simpl; [tauto|].
  destruct (mem y l) eqn:M.
  - rewrite IH. apply mem_In in M. split; [auto | intros [->|H]; auto].
  - simpl. rewrite IH. tauto.
Qed.

End PyStrFacts.

(** ** The scan of the batch state file *)

Module BatchFacts.
Import PyStr PyStrFacts Batch.

(** C9. A record is scheduled exactly when its answer is the empty string
    or starts with the error marker; the scheduled records are the
    matching ones, in file order, and every other record is skipped. *)
Theorem process_questions_schedules_exactly (file : list Row) :
  (forall data, needs_processing data = true <-> reprocess data)
  /\ process_questions file
     = List.map (fun data => (id data, question data))
                (filter needs_processing file)
  /\ (forall i q, In (i, q) (process_questions file) <->
        exists data, In data file /\ reprocess data
                     /\ id data = i /\ question data = q).
Proof.
  assert (Hiff : forall data, needs_processing data = true <-> reprocess data).
  { intros data. unfold needs_processing, reprocess.
    rewrite orb_true_iff, andb_true_iff, eqb_eq.
    destruct (answer data) as [|c a] eqn:E; simpl.
    - split; [intros _; left; reflexivity | intros _; left; reflexivity].
    - split.
      + intros [H|[_ H]]; [discriminate | right; exact H].
      + intros [H|H]; [discriminate | right; split; [reflexivity | exact H]]. }
  assert (Hmap : process_questions file
     = List.map (fun data => (id data, question data))
                (filter needs_processing file)).
  { induction file as [|data rest IH]; simpl; [reflexivity|].
    destruct (needs_processing data); simpl; rewrite IH; reflexivity. }
  split; [exact Hiff | split; [exact Hmap|]].
  intros i q. rewrite Hmap, in_map_iff. split.
  - intros (data & E & Hin). apply filter_In in Hin as [Hin Hn].
    injection E as <- <-. exists data.
    split; [exact Hin | split; [apply Hiff; exact Hn | split; reflexivity]].
  - intros (data & Hin & Hr & <- & <-). exists data.
    split; [reflexivity | apply filter_In; split; [exact Hin | apply Hiff; exact Hr]].
Qed.

End BatchFacts.

(** ** Case numbers: the doubled-year example *)

Module AugmentFacts.
Import PyStr PyStrFacts CaseNum.



End AugmentFacts.

(** ** The execution loop *)

Module ExecutorFacts.
Import PyStr PyStrFacts Executor.

Section Loop.

Variable acomplete : nat -> Prompt -> exn + pystr.
Variable parse_python : pystr -> pystr.
Variable execute_code : nat -> pystr -> RunResult.
Variable should_retry : exn -> bool.

#[local] Abbreviation repair_loop := (repair_loop acomplete parse_python execute_code).
#[local] Abbreviation exec_task_once := (exec_task_once acomplete parse_python execute_code).
#[local] Abbreviation retrying := (retrying acomplete parse_python execute_code should_retry).
#[local] Abbreviation exec_task := (exec_task acomplete parse_python execute_code should_retry).
#[local] Abbreviation run := (run acomplete parse_python execute_code should_retry).
#[local] Abbreviation run_code := (run_code execute_code).

(** *** Counting *)

Lemma executions_record_execution st code r :
  executions (record (Execution code r) st) = S (executions st).
Proof. reflexivity. Qed.

Lemma executions_record_completion st p :
  executions (record (Completion p) st) = executions st.
Proof. reflexivity. Qed.

Lemma completions_record_execution st code r :
  completions (record (Execution code r) st) = completions st.
Proof. reflexivity. Qed.

Lemma log_promote st code r : log (promote st code r) = log st.
Proof. unfold promote. destruct (_ <? _); reflexivity. Qed.

Lemma executions_promote st code r :
  executions (promote st code r) = executions st.
Proof. unfold executions. rewrite log_promote. reflexivity. Qed.

Lemma completions_promote st code r :
  completions (promote st code r) = completions st.
Proof. unfold completions. rewrite log_promote. reflexivity. Qed.

Lemma repair_loop_executions n message st task :
  executions (state_of (repair_loop n message st task)) <= executions st + n.
Proof.
  revert message st task. induction n as [|n IH]; intros message st task.
  - unfold state_of; simpl. lia.
  - simpl. destruct (fast_fail _).
    + unfold state_of; simpl. rewrite executions_record_execution. lia.
    + destruct (success _).
      * unfold state_of; simpl.
        rewrite executions_promote, executions_record_execution. lia.
      * destruct (acomplete _ _) as [e|message'].
        -- unfold state_of; simpl.
           rewrite executions_record_completion, executions_promote,
             executions_record_execution. lia.
        -- specialize (IH message'
             (record (Completion (DebugPrompt (parse_python message)
                        (run_code st (parse_python message))))
                (promote (record (Execution (parse_python message)
                            (run_code st (parse_python message))) st)
                   (parse_python message)
                   (run_code st (parse_python message)))) task).
           rewrite executions_record_completion, executions_promote,
             executions_record_execution in IH. lia.
Qed.

Lemma exec_task_once_executions st task :
  executions (state_of (exec_task_once st task)) <= executions st + 4.
Proof.
  unfold Executor.exec_task_once.
  destruct (acomplete _ _) as [e|message].
  - unfold state_of; simpl. rewrite executions_record_completion. lia.
  - pose proof (repair_loop_executions 4 message
                  (record (Completion TaskPrompt) st) task) as H.
    rewrite executions_record_completion in H.
    destruct (repair_loop 4 message _ task) as [[[|e] st'] task'];
      unfold state_of in *; simpl in *; exact H.
Qed.

Lemma retrying_executions k st task :
  executions (state_of (retrying k st task)) <= executions st + 4 * k.
Proof.
  revert st task. induction k as [|k IH]; intros st task.
  - unfold state_of; simpl. lia.
  - simpl. pose proof (exec_task_once_executions st task) as H.
    destruct (exec_task_once st task) as [[[|e] st'] task'];
      unfold state_of in H; simpl in H.
    + unfold state_of; simpl. lia.
    + destruct (should_retry e).
      * specialize (IH st' task'). lia.
      * unfold state_of; simpl. lia.
Qed.

(** Four plain failures: the loop runs dry and the task is untouched. *)
Lemma repair_loop_exhausted n message st task :
  (forall k p, exists reply, acomplete k p = inr reply) ->
  (forall k code, executions st <= k < executions st + n ->
     fails (execute_code k code)) ->
  exists st', repair_loop n message st task = (Returned, st', task)
              /\ executions st' = executions st + n
              /\ finished st' = finished st.
Proof.
  intros Hllm. revert message st task.
  induction n as [|n IH]; intros message st task Hfail.
  - exists st. simpl. repeat split; lia.
  - simpl.
    destruct (Hfail (executions st) (Coder.submitted (parse_python message)))
      as [Hs Hf]; [lia|].
    unfold Executor.run_code. rewrite Hf, Hs.
    match goal with |- context [acomplete ?k ?p] =>
      destruct (Hllm k p) as [reply ->] end.
    match goal with |- context [repair_loop n reply ?s task] =>
      destruct (IH reply s task) as (st' & E & Hx & Hfin) end.
    + intros k code Hk. apply Hfail.
      rewrite executions_record_completion, executions_promote,
        executions_record_execution in Hk. lia.
    + exists st'. split; [exact E|].
      rewrite executions_record_completion, executions_promote,
        executions_record_execution in Hx.
      split; [lia|]. rewrite Hfin. unfold promote.
      destruct (_ <? _); reflexivity.
Qed.

(** C1, amended. One invocation of [exec_task] executes at most 4 times
    (1 synthesis, then at most 3 repairs); since [exec_task] is retried, a
    task sees at most 3 invocations, so at most 12 executions; and when the
    4 attempts of an invocation fail without tripping the fast-fail test,
    [exec_task] returns after exactly these 4 executions and leaves the
    task as it was (its result unset). *)
Theorem exec_task_attempt_bound (st : State) (task : Task) :
  executions (state_of (exec_task_once st task)) <= executions st + 4
  /\ executions (state_of (exec_task st task)) <= executions st + 12
  /\ ((forall k p, exists reply, acomplete k p = inr reply) ->
      (forall k code, executions st <= k < executions st + 4 ->
         fails (execute_code k code)) ->
      exists st', exec_task st task = (Returned, st', task)
                  /\ executions st' = executions st + 4).
Proof.
  split; [apply exec_task_once_executions|].
  split; [apply (retrying_executions 3)|].
  intros Hllm Hfail.
  unfold Executor.exec_task. simpl. unfold Executor.exec_task_once.
  destruct (Hllm (completions st) TaskPrompt) as [message ->].
  destruct (repair_loop_exhausted 4 message
              (record (Completion TaskPrompt) st) task Hllm)
    as (st' & E & Hx & _).
  - intros k code Hk. apply Hfail.
    rewrite executions_record_completion in Hk. exact Hk.
  - rewrite E. exists (finish_task st'). split; [reflexivity|].
    rewrite executions_record_completion in Hx. exact Hx.
Qed.

(** *** The best output *)

Lemma no_shorter_refl st : no_shorter st st.
Proof. split; lia. Qed.

Lemma no_shorter_trans a b c : no_shorter a b -> no_shorter b c -> no_shorter a c.
Proof. intros [] []; split; lia. Qed.

Lemma no_shorter_record st e : no_shorter st (record e st).
Proof. split; simpl; lia. Qed.

Lemma no_shorter_finish st : no_shorter st (finish_task st).
Proof. split; simpl; lia. Qed.

Lemma no_shorter_promote st code r : no_shorter st (promote st code r).
Proof.
  unfold promote. destruct (_ <? _) eqn:L; [|apply no_shorter_refl].
  apply Nat.ltb_lt in L. split; simpl; [lia|].
  unfold set_result. destruct (_ <? _) eqn:L'; simpl; [|lia].
  apply Nat.ltb_lt in L'. lia.
Qed.

Lemma synced_promote st code r : synced st -> synced (promote st code r).
Proof.
  unfold synced, promote. intros E.
  destruct (_ <? _) eqn:L; [|exact E]. simpl.
  unfold set_result. rewrite E, L. reflexivity.
Qed.

Lemma repair_loop_no_shorter n message st task :
  no_shorter st (state_of (repair_loop n message st task)).
Proof.
  revert message st task. induction n as [|n IH]; intros message st task.
  - apply no_shorter_refl.
  - simpl. destruct (fast_fail _); [apply no_shorter_record|].
    destruct (success _).
    + eapply no_shorter_trans;
        [apply no_shorter_record | apply no_shorter_promote].
    + assert (H : no_shorter st
        (record (Completion (DebugPrompt (parse_python message)
                   (run_code st (parse_python message))))
           (promote (record (Execution (parse_python message)
                       (run_code st (parse_python message))) st)
              (parse_python message) (run_code st (parse_python message))))).
      { eapply no_shorter_trans; [apply no_shorter_record|].
        eapply no_shorter_trans;
          [apply no_shorter_promote | apply no_shorter_record]. }
      destruct (acomplete _ _) as [e|message']; [exact H|].
      eapply no_shorter_trans; [exact H | apply IH].
Qed.

Lemma repair_loop_synced n message st task :
  synced st -> synced (state_of (repair_loop n message st task)).
Proof.
  revert message st task. induction n as [|n IH]; intros message st task E.
  - exact E.
  - simpl. destruct (fast_fail _); [exact E|].
    destruct (success _).
    + apply synced_promote. exact E.
    + destruct (acomplete _ _) as [e|message'].
      * apply (synced_promote (record _ st)). exact E.
      * apply IH. apply (synced_promote (record _ st)). exact E.
Qed.

Lemma exec_task_once_no_shorter st task :
  no_shorter st (state_of (exec_task_once st task)).
Proof.
  unfold Executor.exec_task_once.
  destruct (acomplete _ _) as [e|message]; [apply no_shorter_record|].
  pose proof (repair_loop_no_shorter 4 message
                (record (Completion TaskPrompt) st) task) as H.
  destruct (repair_loop 4 message _ task) as [[[|e] st'] task'];
    unfold state_of in *; simpl in *.
  - eapply no_shorter_trans; [apply no_shorter_record|].
    eapply no_shorter_trans; [exact H | apply no_shorter_finish].
  - eapply no_shorter_trans; [apply no_shorter_record | exact H].
Qed.

Lemma exec_task_once_synced st task :
  synced st -> synced (state_of (exec_task_once st task)).
Proof.
  intros E. unfold Executor.exec_task_once.
  destruct (acomplete _ _) as [e|message]; [exact E|].
  pose proof (repair_loop_synced 4 message
                (record (Completion TaskPrompt) st) task E) as H.
  destruct (repair_loop 4 message _ task) as [[[|e] st'] task'];
    unfold state_of in *; simpl in *; exact H.
Qed.

Lemma retrying_no_shorter k st task :
  no_shorter st (state_of (retrying k st task)).
Proof.
  revert st task. induction k as [|k IH]; intros st task.
  - apply no_shorter_refl.
  - simpl. pose proof (exec_task_once_no_shorter st task) as H.
    destruct (exec_task_once st task) as [[[|e] st'] task'];
      unfold state_of in H; simpl in H; [exact H|].
    destruct (should_retry e); [|exact H].
    eapply no_shorter_trans; [exact H | apply IH].
Qed.

Lemma retrying_synced k st task :
  synced st -> synced (state_of (retrying k st task)).
Proof.
  revert st task. induction k as [|k IH]; intros st task E.
  - exact E.
  - simpl. pose proof (exec_task_once_synced st task E) as H.
    destruct (exec_task_once st task) as [[[|e] st'] task'];
      unfold state_of in H; simpl in H; [exact H|].
    destruct (should_retry e); [|exact H].
    apply IH. exact H.
Qed.

Lemma run_no_shorter tasks st : no_shorter st (state_of (run st tasks)).
Proof.
  revert st. induction tasks as [|task rest IH]; intros st.
  - apply no_shorter_refl.
  - simpl. pose proof (retrying_no_shorter 3 st task) as H.
    unfold Executor.exec_task.
    destruct (retrying 3 st task) as [[[|e] st'] task'];
      unfold state_of in H; simpl in H; [|exact H].
    specialize (IH st').
    destruct (run st' rest) as [[o st''] rest'].
    unfold state_of in *; simpl in *.
    eapply no_shorter_trans; [exact H | exact IH].
Qed.

Lemma run_synced tasks st : synced st -> synced (state_of (run st tasks)).
Proof.
  revert st. induction tasks as [|task rest IH]; intros st E.
  - exact E.
  - simpl. pose proof (retrying_synced 3 st task E) as H.
    unfold Executor.exec_task.
    destruct (retrying 3 st task) as [[[|e] st'] task'];
      unfold state_of in H; simpl in H; [|exact H].
    specialize (IH st' H).
    destruct (run st' rest) as [[o st''] rest'].
    unfold state_of in *; simpl in *. exact IH.
Qed.

(** The stored best output after one attempt. *)
Lemma attempt_best_result message st task :
  synced st ->
  best_result (solution_space (state_of (repair_loop 1 message st task)))
  = if fast_fail (run_code st (parse_python message))
    then best_result (solution_space st)
    else if length (best_result (solution_space st))
              <? length (result (run_code st (parse_python message)))
         then result (run_code st (parse_python message))
         else best_result (solution_space st).
Proof.
  intros E. simpl. destruct (fast_fail _); [reflexivity|].
  assert (H : best_result (solution_space
                (promote (record (Execution (parse_python message)
                            (run_code st (parse_python message))) st)
                   (parse_python message)
                   (run_code st (parse_python message))))
              = if length (best_result (solution_space st))
                     <? length (result (run_code st (parse_python message)))
                then result (run_code st (parse_python message))
                else best_result (solution_space st)).
  { unfold promote. simpl. rewrite <- E.
    destruct (_ <? _) eqn:L; [|reflexivity].
    simpl. unfold set_result. rewrite L. reflexivity. }
  destruct (success _); [exact H|].
  destruct (acomplete _ _); exact H.
Qed.

(** C2, amended. The stored best output is replaced exactly when an
    attempt that does not trip the fast-fail test produced a strictly
    longer output, whether the attempt succeeded or failed; ties and
    shorter outputs keep it, and a fast-failed attempt leaves it as it is.
    Over all the attempts of a question its length never decreases. *)
Theorem best_result_only_grows (st : State) (message : pystr) (task : Task)
    (tasks : list Task) :
  synced st ->
  let r := run_code st (parse_python message) in
  let after_attempt := state_of (repair_loop 1 message st task) in
  let after_run := state_of (run st tasks) in
  best_result (solution_space after_attempt)
    = (if fast_fail r then best_result (solution_space st)
       else if length (best_result (solution_space st)) <? length (result r)
            then result r
            else best_result (solution_space st))
  /\ synced after_attempt
  /\ synced after_run
  /\ length (best_result (solution_space st))
     <= length (best_result (solution_space after_run)).
Proof.
  intros E r after_attempt after_run.
  split; [apply attempt_best_result; exact E|].
  split; [apply repair_loop_synced; exact E|].
  split; [apply run_synced; exact E|].
  apply (run_no_shorter tasks st).
Qed.

(** *** The fast-fail path *)

Lemma fresh_cons_synthesis l :
  fresh_after_fast_fail l -> fresh_after_fast_fail (Completion TaskPrompt :: l).
Proof.
  intros H [|x newer] e code r older E Hf.
  - simpl in E. injection E as <- _. reflexivity.
  - simpl in E. injection E as _ E. exact (H _ _ _ _ _ E Hf).
Qed.

Lemma fresh_cons_execution l code r :
  fresh_after_fast_fail l -> head_completion l ->
  fresh_after_fast_fail (Execution code r :: l).
Proof.
  intros H Hh [|x newer] e code' r' older E Hf.
  - simpl in E. injection E as _ E. subst l. destruct Hh.
  - simpl in E. injection E as _ E. exact (H _ _ _ _ _ E Hf).
Qed.

Lemma fresh_cons_after_plain l e code r :
  fresh_after_fast_fail (Execution code r :: l) -> fast_fail r = false ->
  fresh_after_fast_fail (e :: Execution code r :: l).
Proof.
  intros H Hr [|x newer] e' code' r' older E Hf.
  - simpl in E. injection E as _ _ <- _. congruence.
  - simpl in E. injection E as _ E. exact (H _ _ _ _ _ E Hf).
Qed.

Lemma repair_loop_fresh n message st task :
  fresh_after_fast_fail (log st) -> head_completion (log st) ->
  fresh_after_fast_fail (log (state_of (repair_loop n message st task))).
Proof.
  revert message st task. induction n as [|n IH]; intros message st task H Hh.
  - exact H.
  - simpl.
    pose proof (fresh_cons_execution (log st) (parse_python message)
                  (run_code st (parse_python message)) H Hh) as H1.
    destruct (fast_fail _) eqn:Hf; [exact H1|].
    destruct (success _).
    + unfold state_of; simpl. rewrite log_promote. exact H1.
    + assert (H2 : fresh_after_fast_fail
        (log (record (Completion (DebugPrompt (parse_python message)
                        (run_code st (parse_python message))))
                (promote (record (Execution (parse_python message)
                            (run_code st (parse_python message))) st)
                   (parse_python message)
                   (run_code st (parse_python message)))))).
      { simpl. rewrite log_promote. simpl.
        apply fresh_cons_after_plain; [exact H1 | exact Hf]. }
      destruct (acomplete _ _) as [e|message']; [exact H2|].
      apply IH; [exact H2 | exact I].
Qed.

Lemma exec_task_once_fresh st task :
  fresh_after_fast_fail (log st) ->
  fresh_after_fast_fail (log (state_of (exec_task_once st task))).
Proof.
  intros H. unfold Executor.exec_task_once.
  pose proof (fresh_cons_synthesis (log st) H) as H1.
  destruct (acomplete _ _) as [e|message]; [exact H1|].
  pose proof (repair_loop_fresh 4 message
                (record (Completion TaskPrompt) st) task H1 I) as H2.
  destruct (repair_loop 4 message _ task) as [[[|e] st'] task'];
    unfold state_of in *; simpl in *; exact H2.
Qed.

Lemma retrying_fresh k st task :
  fresh_after_fast_fail (log st) ->
  fresh_after_fast_fail (log (state_of (retrying k st task))).
Proof.
  revert st task. induction k as [|k IH]; intros st task H.
  - exact H.
  - simpl. pose proof (exec_task_once_fresh st task H) as H1.
    destruct (exec_task_once st task) as [[[|e] st'] task'];
      unfold state_of in H1; simpl in H1; [exact H1|].
    destruct (should_retry e); [|exact H1].
    apply IH. exact H1.
Qed.

(** The log only grows. *)
Lemma repair_loop_log n message st task :
  exists newer,
    log (state_of (repair_loop n message st task)) = newer ++ log st.
Proof.
  revert message st task. induction n as [|n IH]; intros message st task.
  - exists []. reflexivity.
  - simpl. destruct (fast_fail _).
    + eexists [_]. reflexivity.
    + destruct (success _).
      * unfold state_of; simpl. rewrite log_promote.
        eexists [_]. reflexivity.
      * destruct (acomplete _ _) as [e|message'].
        -- unfold state_of; simpl. rewrite log_promote.
           eexists [_; _]. reflexivity.
        -- match goal with |- context [repair_loop n message' ?s task] =>
             destruct (IH message' s task) as [newer E] end.
           rewrite E. simpl. rewrite log_promote. simpl.
           eexists (newer ++ [_; _]). rewrite <- app_assoc. reflexivity.
Qed.

Lemma exec_task_once_log st task :
  exists newer,
    log (state_of (exec_task_once st task))
    = newer ++ Completion TaskPrompt :: log st.
Proof.
  unfold Executor.exec_task_once.
  destruct (acomplete _ _) as [e|message]; [exists []; reflexivity|].
  destruct (repair_loop_log 4 message (record (Completion TaskPrompt) st) task)
    as [newer E].
  destruct (repair_loop 4 message _ task) as [[[|e] st'] task'];
    unfold state_of in *; simpl in *; exists newer; exact E.
Qed.

Lemma retrying_log k st task :
  exists newer, log (state_of (retrying k st task)) = newer ++ log st.
Proof.
  revert st task. induction k as [|k IH]; intros st task.
  - exists []. reflexivity.
  - simpl. destruct (exec_task_once_log st task) as [newer E].
    destruct (exec_task_once st task) as [[[|e] st'] task'];
      unfold state_of in E; simpl in E.
    + exists (newer ++ [Completion TaskPrompt]).
      rewrite <- app_assoc. exact E.
    + destruct (should_retry e).
      * destruct (IH st' task') as [newer' E']. rewrite E', E.
        exists (newer' ++ newer ++ [Completion TaskPrompt]).
        rewrite <- !app_assoc. reflexivity.
      * exists (newer ++ [Completion TaskPrompt]).
        rewrite <- app_assoc. exact E.
Qed.

Lemma retrying_starts_with_synthesis k st task :
  exists newer,
    log (state_of (retrying (S k) st task))
    = newer ++ Completion TaskPrompt :: log st.
Proof.
  simpl. destruct (exec_task_once_log st task) as [newer E].
  destruct (exec_task_once st task) as [[[|e] st'] task'];
    unfold state_of in E; simpl in E.
  - eexists. exact E.
  - destruct (should_retry e).
    + destruct (retrying_log k st' task') as [newer' E']. rewrite E', E.
      eexists (newer' ++ newer). rewrite <- app_assoc. reflexivity.
    + eexists. exact E.
Qed.

(** C4. When an attempt returns the error name [RunCodeException] with
    [IndentationError] in the error value, the loop raises at once: no
    repair request is built, nothing more is executed in this invocation
    and neither the stored output nor the task changes. In the log of
    [exec_task] the event after such an attempt, if there is one, is
    always a fresh synthesis request; and when the exception is retryable
    and attempts are left, there is one. *)
Theorem fast_fail_raises_immediately (st : State) (task : Task)
    (message : pystr) :
  let code := parse_python message in
  let r := run_code st code in
  (forall n, fast_fail r = true ->
     repair_loop (S n) message st task
     = (Raised IndentationError, record (Execution code r) st, task))
  /\ (fresh_after_fast_fail (log st) ->
      fresh_after_fast_fail (log (state_of (exec_task st task))))
  /\ (forall st0, st = record (Completion TaskPrompt) st0 ->
      acomplete (completions st0) TaskPrompt = inr message ->
      fast_fail r = true -> should_retry IndentationError = true ->
      exists newer,
        log (state_of (exec_task st0 task))
        = newer ++ Completion TaskPrompt :: Execution code r
            :: Completion TaskPrompt :: log st0).
Proof.
  intros code r. split; [|split].
  - intros n Hf. simpl. fold code. fold r. rewrite Hf. reflexivity.
  - apply (retrying_fresh 3).
  - intros st0 -> Hm Hf Hr.
    unfold Executor.exec_task.
    change (retrying 3 st0 task) with
      (match exec_task_once st0 task with
       | (Returned, st', task') => (Returned, st', task')
       | (Raised e, st', task') =>
           if should_retry e then retrying 2 st' task'
           else (Raised e, st', task')
       end).
    unfold Executor.exec_task_once. rewrite Hm.
    simpl Executor.repair_loop. fold code. fold r. rewrite Hf, Hr.
    destruct (retrying_starts_with_synthesis 1
                (record (Execution code r)
                   (record (Completion TaskPrompt) st0)) task)
      as [newer E].
    exists newer. exact E.
Qed.

End Loop.

(** The exhaustion case of [exec_task_attempt_bound] on a sandbox that
    always fails plainly. *)
Lemma exec_task_attempt_bound_witness :
  exists st',
    Executor.exec_task (fun _ _ => inr []) (fun m => m)
      (fun _ _ => plain_failure) should_retry_spec initial unset
    = (Returned, st', unset)
    /\ executions st' = executions initial + 4.
Proof.
  apply (proj2 (proj2 (exec_task_attempt_bound (fun _ _ => inr [])
           (fun m => m) (fun _ _ => plain_failure) should_retry_spec
           initial unset))).
  - intros k p. exists []. reflexivity.
  - intros k code _. split; reflexivity.
Defined.

(** C1, as stated, fails: when the first attempt trips the fast-fail test,
    [exec_task] is invoked afresh, and four plain failures follow: five
    executions for one task, the fifth after a fourth failed attempt. *)
Lemma exec_task_more_than_four_executions :
  let sandbox (k : nat) (_ : pystr) :=
    if k =? 0 then misindented else plain_failure in
  executions (state_of (Executor.exec_task (fun _ _ => inr []) (fun m => m)
                          sandbox should_retry_spec initial unset)) = 5.
Proof. vm_compute. reflexivity. Qed.

(** The stored best output over a run on a sandbox that always fails. *)
Lemma best_result_only_grows_witness :
  length (best_result (solution_space initial))
  <= length (best_result (solution_space
       (state_of (Executor.run (fun _ _ => inr []) (fun m => m)
                    (fun _ _ => plain_failure) should_retry_spec
                    initial [unset])))).
Proof.
  apply (proj2 (proj2 (proj2 (best_result_only_grows (fun _ _ => inr [])
          (fun m => m) (fun _ _ => plain_failure) should_retry_spec
          initial [] unset [unset] eq_refl)))).
Defined.

(** C2, as stated, fails: a fast-failed attempt raises before the
    comparison, so its output is not promoted although it is strictly
    longer than the stored one. *)
Lemma fast_failed_output_is_not_promoted :
  let st' :=
    state_of (Executor.repair_loop (fun _ _ => inr []) (fun m => m)
                (fun _ _ => misindented) 1 [] initial unset) in
  length (best_result (solution_space initial)) < length (result misindented)
  /\ best_result (solution_space st') = best_result (solution_space initial)
  /\ latest_output st' = latest_output initial.
Proof. vm_compute. repeat split. lia. Qed.

(** A fast-failed first attempt is followed by a fresh synthesis. *)
Lemma fast_fail_raises_immediately_witness :
  exists newer,
    log (state_of (Executor.exec_task (fun _ _ => inr []) (fun m => m)
                     (fun _ _ => misindented) should_retry_spec
                     initial unset))
    = newer ++ [Completion TaskPrompt; Execution [] misindented;
                Completion TaskPrompt].
Proof.
  apply (proj2 (proj2 (fast_fail_raises_immediately (fun _ _ => inr [])
           (fun m => m) (fun _ _ => misindented) should_retry_spec
           (record (Completion TaskPrompt) initial) unset [])) initial);
    reflexivity.
Defined.

End ExecutorFacts.

(** ** Mentions: resolution and substitution *)

Module PreprocessorFacts.
Import PyStr PyStrFacts Preprocessor.

(** *** [str.replace] with a count of one *)

Lemma replace_go_spent (old new : pystr) (k : nat) (s : pystr) :
  replace_go old new (Some 0) k s = skipn k s.
Proof.
  revert k. induction s as [|c s IH]; intros k.
  - destruct k; reflexivity.
  - destruct k as [|k]; simpl.
    + rewrite (IH 0). reflexivity.
    + apply IH.
Qed.

Lemma replace_go_at (old new post : pystr) (b : option nat) :
  old <> [] -> budget_left b = true ->
  replace_go old new b 0 (old ++ post)
  = new ++ replace_go old new (budget_dec b) (length old - 1)
             (tl old ++ post).
Proof.
  intros Hne Hb. destruct old as [|c old]; [congruence|].
  cbn [app tl replace_go]. rewrite Hb.
  change (c :: old ++ post) with ((c :: old) ++ post).
  rewrite startswith_app. reflexivity.
Qed.

Lemma skipn_tl_app (old post : pystr) :
  skipn (length old - 1) (tl old ++ post) = post.
Proof.
  destruct old as [|c old]; [reflexivity|].
  simpl. rewrite Nat.sub_0_r.
  rewrite skipn_app, skipn_all, Nat.sub_diag. reflexivity.
Qed.

Lemma first_at_tail (old : pystr) (x : char) (pre post : pystr) :
  first_at old (x :: pre) post -> first_at old pre post.
Proof.
  intros H k Hk. apply (H (S k)). simpl. lia.
Qed.

(** One replacement: the first occurrence is rewritten, the rest of the
    text is copied. *)
Lemma replace_first (old new pre post : pystr) :
  old <> [] -> first_at old pre post ->
  replace_count old new (Some 1) (pre ++ old ++ post) = pre ++ new ++ post.
Proof.
  intros Hne. unfold replace_count.
  destruct old as [|c0 old0] eqn:Eo; [congruence|]. rewrite <- Eo in *.
  clear Eo. induction pre as [|x pre IH]; intros Hfirst.
  - cbn [app]. rewrite replace_go_at by (auto; reflexivity).
    simpl budget_dec. rewrite replace_go_spent, skipn_tl_app. reflexivity.
  - cbn [app replace_go].
    pose proof (Hfirst 0 (Nat.lt_0_succ _)) as H0. simpl skipn in H0.
    cbn [app] in H0. rewrite H0. simpl andb. cbv iota.
    rewrite IH; [reflexivity|]. eapply first_at_tail; exact Hfirst.
Qed.

Lemma replace_absent (old new : pystr) (b : option nat) (s : pystr) :
  old <> [] -> contains old s = false -> replace_count old new b s = s.
Proof.
  intros Hne. unfold replace_count.
  destruct old as [|c0 old0] eqn:Eo; [congruence|]. rewrite <- Eo in *.
  clear Eo. induction s as [|x s IH]; intros Hc; [reflexivity|].
  simpl in Hc. apply orb_false_iff in Hc as [Hs Hc].
  cbn [replace_go]. rewrite Hs, andb_false_r, IH by exact Hc. reflexivity.
Qed.

(** A mention that stays unresolved rewrites its text to itself. *)
Lemma replace_same (c s : pystr) : replace_count c c (Some 1) s = s.
Proof.
  unfold replace_count. destruct c as [|c0 c'] eqn:Ec.
  - destruct s as [|x [|y s]]; reflexivity.
  - rewrite <- Ec. assert (Hne : c <> []) by (rewrite Ec; discriminate).
    clear Ec. induction s as [|x s IH]; [reflexivity|].
    cbn [replace_go]. simpl budget_left. simpl andb.
    destruct (startswith (x :: s) c) eqn:Hs.
    + apply startswith_prefix in Hs as [t E].
      destruct c as [|y c'']; [congruence|].
      injection E as E1 E2. subst x s.
      simpl budget_dec. rewrite replace_go_spent.
      replace (length (y :: c'') - 1) with (length c'') by (simpl; lia).
      rewrite skipn_app, skipn_all, Nat.sub_diag. reflexivity.
    + rewrite IH. reflexivity.
Qed.

Lemma substitute_fold (es : list NamedEntity) (question : pystr) (NER : dict) :
  fst (substitute question NER es) = fold_left substitute_step es question.
Proof.
  revert question NER. induction es as [|e es IH]; intros question NER.
  - reflexivity.
  - simpl. unfold substitute_step at 2.
    destruct (standardized e) as [std|]; apply IH.
Qed.

(** C5. The substitution goes through the mentions in list order, one
    [replace] with count 1 each: the first occurrence of the raw content
    becomes the standardized form and everything after it is copied, so a
    second occurrence of the same text stays; an unresolved mention
    (standardized equal to content) and a mention whose text is absent
    leave the question as it is. *)
Theorem substitute_first_occurrence_only (question : pystr) (NER : dict)
    (named_entities : list NamedEntity) :
  fst (substitute question NER named_entities)
    = fold_left substitute_step named_entities question
  /\ (forall e std pre post,
        standardized e = Some std -> content e <> [] ->
        first_at (content e) pre post ->
        substitute_step (pre ++ content e ++ post) e = pre ++ std ++ post)
  /\ (forall e std pre mid post,
        standardized e = Some std -> content e <> [] ->
        first_at (content e) pre (mid ++ content e ++ post) ->
        fst (substitute (pre ++ content e ++ mid ++ content e ++ post) NER [e])
        = pre ++ std ++ mid ++ content e ++ post)
  /\ (forall e, standardized e = Some (content e) ->
        substitute_step question e = question)
  /\ (forall e, content e <> [] -> contains (content e) question = false ->
        substitute_step question e = question).
Proof.
  split; [apply substitute_fold|].
  split.
  { intros e std pre post Hs Hne Hf. unfold substitute_step. rewrite Hs.
    apply replace_first; assumption. }
  split.
  { intros e std pre mid post Hs Hne Hf. simpl. rewrite Hs.
    destruct (found e); simpl;
      apply (replace_first (content e) std pre (mid ++ content e ++ post));
      assumption. }
  split.
  { intros e Hs. unfold substitute_step. rewrite Hs. apply replace_same. }
  intros e Hne Hc. unfold substitute_step.
  destruct (standardized e); [apply replace_absent; assumption | reflexivity].
Qed.

(** A company name occurring twice, covered by one mention. *)
Lemma substitute_first_occurrence_only_witness :
  fst (substitute (u "查询航天机电的子公司，航天机电的注册地址") []
         [{| ne_type := u "公司简称"; content := u "航天机电";
             standardized := Some (u "上海航天汽车机电股份有限公司");
             found := true |}])
  = u "查询上海航天汽车机电股份有限公司的子公司，航天机电的注册地址".
Proof.
  apply (proj1 (proj2 (proj2 (substitute_first_occurrence_only [] [] [])))
           {| ne_type := u "公司简称"; content := u "航天机电";
              standardized := Some (u "上海航天汽车机电股份有限公司");
              found := true |}
           (u "上海航天汽车机电股份有限公司") (u "查询") (u "的子公司，")
           (u "的注册地址")).
  - reflexivity.
  - discriminate.
  - intros k Hk. vm_compute in Hk.
    destruct k as [|[|k]]; [reflexivity | reflexivity | lia].
Defined.

(** *** The resolution loop *)

Section Resolve.

Variable remote : pystr -> pystr -> Lookup.

Lemma resolve_looked_up_fresh (es : list NamedEntity) (qs : list pystr)
    (c : pystr) :
  In c (snd (resolve remote qs es)) -> mem c qs = false.
Proof.
  revert qs. induction es as [|e es IH]; intros qs; simpl; [tauto|].
  destruct (mem (content e) qs) eqn:M.
  - specialize (IH qs). destruct (resolve remote qs es). exact IH.
  - specialize (IH (content e :: qs)).
    destruct (resolve remote (content e :: qs) es) as [out looked_up].
    simpl. intros [<-|Hin]; [exact M|].
    specialize (IH Hin). simpl in IH.
    apply orb_false_iff in IH. tauto.
Qed.

Lemma resolve_looked_up_NoDup (es : list NamedEntity) (qs : list pystr) :
  NoDup (snd (resolve remote qs es)).
Proof.
  revert qs. induction es as [|e es IH]; intros qs; simpl; [constructor|].
  destruct (mem (content e) qs) eqn:M.
  - specialize (IH qs). destruct (resolve remote qs es). exact IH.
  - pose proof (resolve_looked_up_fresh es (content e :: qs) (content e)) as F.
    specialize (IH (content e :: qs)).
    destruct (resolve remote (content e :: qs) es) as [out looked_up].
    simpl in *. constructor; [|exact IH].
    intros Hin. specialize (F Hin). rewrite eqb_refl in F. discriminate.
Qed.

Lemma resolve_looks_up (es : list NamedEntity) (qs : list pystr)
    (e : NamedEntity) :
  In e es -> mem (content e) qs = true
             \/ In (content e) (snd (resolve remote qs es)).
Proof.
  revert qs. induction es as [|x es IH]; intros qs; simpl; [tauto|].
  intros [->|Hin].
  - destruct (mem (content e) qs) eqn:M; [left; reflexivity|].
    destruct (resolve remote (content e :: qs) es). right. left. reflexivity.
  - destruct (mem (content x) qs) eqn:M.
    + specialize (IH qs Hin). destruct (resolve remote qs es). exact IH.
    + specialize (IH (content x :: qs) Hin).
      destruct (resolve remote (content x :: qs) es) as [out looked_up].
      simpl in *. destruct IH as [IH|IH]; [|right; right; exact IH].
      apply orb_true_iff in IH as [IH|IH]; [|left; exact IH].
      apply eqb_eq in IH. right. left. symmetry. exact IH.
Qed.

(** A mention whose content was looked up before is passed over. *)
Lemma resolve_skips (es : list NamedEntity) (qs : list pystr) (j : nat)
    (e2 : NamedEntity) :
  nth_error es j = Some e2 ->
  (mem (content e2) qs = true
   \/ exists i e1, i < j /\ nth_error es i = Some e1
                   /\ content e1 = content e2) ->
  nth_error (fst (resolve remote qs es)) j = Some e2.
Proof.
  revert qs j. induction es as [|e es IH]; intros qs j Hj Hq.
  - destruct j; discriminate.
  - destruct j as [|j]; simpl in Hj.
    + injection Hj as ->.
      destruct Hq as [M|(i & e1 & Hi & _)]; [|lia].
      simpl. rewrite M. destruct (resolve remote qs es). reflexivity.
    + simpl. destruct (mem (content e) qs) eqn:M.
      * specialize (IH qs j Hj). destruct (resolve remote qs es). simpl.
        apply IH. destruct Hq as [Hq|(i & e1 & Hi & Hn & Hc)]; [left; exact Hq|].
        destruct i as [|i]; simpl in Hn.
        -- injection Hn as ->. left. rewrite <- Hc. exact M.
        -- right. exists i, e1. repeat split; [lia | exact Hn | exact Hc].
      * specialize (IH (content e :: qs) j Hj).
        destruct (resolve remote (content e :: qs) es). simpl.
        apply IH. destruct Hq as [Hq|(i & e1 & Hi & Hn & Hc)].
        -- left. simpl. rewrite Hq. apply orb_true_r.
        -- destruct i as [|i]; simpl in Hn.
           ++ injection Hn as ->. left. simpl. rewrite Hc, eqb_refl.
              reflexivity.
           ++ right. exists i, e1. repeat split; [lia | exact Hn | exact Hc].
Qed.

(** C6, amended. Of two filtered mentions with the same content only the
    first is looked up: the content appears once among the lookups, and
    the later mention is passed over as it is (it gets no standardized
    value and no found flag of its own, and takes no part in the
    substitution). *)
Theorem same_content_resolved_once (named_entities : list NamedEntity)
    (i j : nat) (e1 e2 : NamedEntity) :
  i < j ->
  nth_error named_entities i = Some e1 ->
  nth_error named_entities j = Some e2 ->
  content e1 = content e2 ->
  NoDup (snd (resolve remote [] named_entities))
  /\ In (content e1) (snd (resolve remote [] named_entities))
  /\ nth_error (fst (resolve remote [] named_entities)) j = Some e2
  /\ (standardized e2 = None -> forall question,
        substitute_step question e2 = question).
Proof.
  intros Hij H1 H2 Hc.
  split; [apply resolve_looked_up_NoDup|].
  split.
  { destruct (resolve_looks_up named_entities [] e1) as [M|H];
      [eapply nth_error_In; exact H1 | discriminate M | exact H]. }
  split.
  { apply resolve_skips; [exact H2|].
    right. exists i, e1. repeat split; assumption. }
  intros Hs question. unfold substitute_step. rewrite Hs. reflexivity.
Qed.

End Resolve.

(** A registry that knows the company under its short name. *)
Definition registry_demo (t c : pystr) : Lookup :=
  {| new_type := u "公司简称";
     hit := Some (u "上海航天汽车机电股份有限公司") |}.

Definition mentions_demo : list NamedEntity :=
  [mention (u "公司名称") (u "航天机电"); mention (u "公司简称") (u "航天机电")].

(** Two mentions of one company, recognised under two types. *)
Lemma same_content_resolved_once_witness :
  nth_error (fst (resolve registry_demo [] mentions_demo)) 1
  = Some (mention (u "公司简称") (u "航天机电")).
Proof.
  apply (proj1 (proj2 (proj2 (same_content_resolved_once registry_demo
           mentions_demo 0 1 (mention (u "公司名称") (u "航天机电"))
           (mention (u "公司简称") (u "航天机电"))
           (Nat.lt_0_succ 0) eq_refl eq_refl eq_refl)))).
Defined.

(** C6, as stated, fails: the second mention does not share the result of
    the first. The first ends with the registry's name and the found flag,
    the second with neither. *)
Lemma same_content_result_not_shared :
  exists a b,
    fst (resolve registry_demo [] mentions_demo) = [a; b]
    /\ content a = content b
    /\ standardized a = Some (u "上海航天汽车机电股份有限公司")
    /\ found a = true
    /\ standardized b = None
    /\ found b = false.
Proof.
  eexists. eexists. split; [vm_compute; reflexivity|].
  repeat split.
Qed.

End PreprocessorFacts.

(** ** The matcher on one-character repetitions *)

Module ReFacts.
Import PyStr PyStrFacts Re.

Lemma rep_loop_unfold body lo hi greedy k fuel cnt i s cs :
  rep_loop body lo hi greedy k (S fuel) cnt i s cs
  = let more (_ : unit) :=
      if may_repeat cnt hi
      then body i s cs (fun i' s' cs' =>
             if i' =? i then None
             else rep_loop body lo hi greedy k fuel (S cnt) i' s' cs')
      else None in
    let stop (_ : unit) := if lo <=? cnt then k i s cs else None in
    if greedy then orelse (more tt) stop else orelse (stop tt) more.
Proof. reflexivity. Qed.

Lemma S_neq_self i : (S i =? i) = false.
Proof. apply Nat.eqb_neq. lia. Qed.

Section OneChar.
Variable body : nat -> pystr -> caps -> cont -> option (nat * caps).
Variable p : char -> bool.
Hypothesis body_one_char : forall i s cs k, body i s cs k = one_char p i s cs k.

Lemma rep_loop_greedy lo k : forall s fuel cnt i cs,
  length s < fuel ->
  rep_loop body lo None true k fuel cnt i s cs = greedy p lo k cnt i s cs.
Proof.
  induction s as [|x s IH]; intros fuel cnt i cs Hf;
    (destruct fuel as [|fuel]; [simpl in Hf; lia|]);
    rewrite rep_loop_unfold; cbn [may_repeat]; cbv zeta;
    rewrite body_one_char; cbn [one_char greedy orelse].
  - reflexivity.
  - destruct (p x); [|reflexivity].
    rewrite S_neq_self, IH by (simpl in Hf; lia). reflexivity.
Qed.
End OneChar.

Lemma m_plus_chr c i s cs k :
  m (Plus (Chr c)) i s cs k = greedy (fun x => (x =? c)%N) 1 k 0 i s cs.
Proof.
  unfold Plus. cbn [m].
  apply (rep_loop_greedy (m (Chr c)) (fun x => (x =? c)%N)); [reflexivity | lia].
Qed.

Lemma greedy_accept p lo i0 adv : forall s cnt i cs,
  adv = false \/ i0 < i + (lo - cnt) ->
  greedy p lo (accept i0 adv) cnt i s cs
  = if lo <=? cnt + span p s then Some (i + span p s, cs) else None.
Proof.
  assert (Hstop : forall s cnt i cs,
    adv = false \/ i0 < i + (lo - cnt) ->
    (if lo <=? cnt then accept i0 adv i s cs else None)
    = if lo <=? cnt + 0 then Some (i + 0, cs) else None).
  { intros s cnt i cs H. rewrite !Nat.add_0_r.
    destruct (lo <=? cnt) eqn:L; [|reflexivity].
    apply Nat.leb_le in L. unfold accept.
    destruct H as [->|H]; [reflexivity|].
    replace (i =? i0) with false by (symmetry; apply Nat.eqb_neq; lia).
    rewrite andb_false_r. reflexivity. }
  induction s as [|x s IH]; intros cnt i cs H; cbn [greedy span].
  - apply Hstop. exact H.
  - destruct (p x); [|apply Hstop; exact H].
    rewrite IH by (destruct H; [left; assumption | right; lia]).
    replace (cnt + S (span p s)) with (S cnt + span p s) by lia.
    replace (i + S (span p s)) with (S i + span p s) by lia.
    destruct (lo <=? S cnt + span p s) eqn:L; [reflexivity|].
    cbn [orelse]. apply Nat.leb_gt in L.
    replace (lo <=? cnt) with false by (symmetry; apply Nat.leb_gt; lia).
    reflexivity.
Qed.

Lemma search_at_unfold r i s adv :
  search_at r i s adv
  = match m r i s [] (accept i adv) with
    | Some (e, cs) => Some (i, e, cs)
    | None => match s with
              | [] => None
              | _ :: s' => search_at r (S i) s' false
              end
    end.
Proof. destruct s; reflexivity. Qed.





Lemma m_star_any i s cs k :
  m (Star Any) i s cs k = greedy (fun x => negb (x =? nl)%N) 0 k 0 i s cs.
Proof.
  unfold Star. cbn [m].
  apply (rep_loop_greedy (m Any) (fun x => negb (x =? nl)%N)); [|lia].
  intros i0 s0 cs0 k0. destruct s0 as [|x s0]; [reflexivity|].
  cbn [m one_char]. destruct (x =? nl)%N; reflexivity.
Qed.





End ReFacts.

(** ** Case numbers: normalisation *)

Module CaseNumFacts.
Import PyStr PyStrFacts Re ReFacts CaseNum.

(** *** [squeeze] cuts every run down to one character *)

Lemma search_plus_chr c : forall s i adv,
  search_at (Plus (Chr c)) i s adv
  = match first_run c s with
    | Some (p, n) => Some (i + p, i + p + n, [])
    | None => None
    end.
Proof.
  induction s as [|x s IH]; intros i adv; rewrite search_at_unfold, m_plus_chr;
    rewrite greedy_accept by (right; lia); fold (is_char c).
  - reflexivity.
  - cbn [span first_run].
    change (is_char c x) with (x =? c)%N. destruct (x =? c)%N.
    + cbn [Nat.leb Nat.add]. rewrite Nat.add_0_r. reflexivity.
    + cbn [Nat.leb Nat.add]. rewrite IH. destruct (first_run c s) as [[p n]|].
      * replace (S i + p) with (i + S p) by lia. reflexivity.
      * reflexivity.
Qed.

Lemma dedup_run_cons2 c x y s :
  dedup_run c (x :: y :: s)
  = if (x =? c)%N && (y =? c)%N then dedup_run c (y :: s)
    else x :: dedup_run c (y :: s).
Proof. reflexivity. Qed.

Lemma dedup_run_single c x : dedup_run c [x] = [x].
Proof. simpl. rewrite andb_false_r. reflexivity. Qed.

Lemma dedup_run_head c : forall s,
  span (is_char c) s <= length s
  /\ dedup_run c (c :: s) = c :: dedup_run c (skipn (span (is_char c) s) s).
Proof.
  induction s as [|y s [Hl IH]].
  - split; [simpl; lia | apply dedup_run_single].
  - cbn [span]. change (is_char c y) with (y =? c)%N.
    rewrite dedup_run_cons2, N.eqb_refl. cbn [andb].
    destruct (y =? c)%N eqn:E.
    + apply N.eqb_eq in E. subst y. split; [simpl; lia|]. exact IH.
    + split; [simpl; lia | reflexivity].
Qed.

Lemma first_run_dedup c : forall s,
  match first_run c s with
  | None => dedup_run c s = s
  | Some (p, n) =>
    1 <= n /\ p + n <= length s
    /\ dedup_run c s = firstn p s ++ [c] ++ dedup_run c (skipn (p + n) s)
  end.
Proof.
  induction s as [|x s IH]; [reflexivity|].
  cbn [first_run]. destruct (x =? c)%N eqn:E.
  - apply N.eqb_eq in E. subst x. cbn [span].
    change (is_char c c) with (c =? c)%N. rewrite N.eqb_refl.
    destruct (dedup_run_head c s) as [Hl Hd].
    split; [lia|]. split; [simpl; lia|]. exact Hd.
  - assert (Hc : dedup_run c (x :: s) = x :: dedup_run c s).
    { destruct s; [apply dedup_run_single|].
      rewrite dedup_run_cons2, E. reflexivity. }
    destruct (first_run c s) as [[p n]|].
    + destruct IH as (Hn & Hl & IH). split; [exact Hn|].
      split; [simpl; lia|]. rewrite Hc, IH. reflexivity.
    + rewrite Hc, IH. reflexivity.
Qed.

Lemma sub_go_squeeze c : forall fuel s i adv,
  length s < fuel ->
  sub_go fuel (Plus (Chr c)) [RLit [c]] i s adv = dedup_run c s.
Proof.
  induction fuel as [|fuel IH]; intros s i adv Hf; [lia|].
  cbn [sub_go]. rewrite search_plus_chr.
  pose proof (first_run_dedup c s) as H.
  destruct (first_run c s) as [[p n]|]; [|symmetry; exact H].
  destruct H as (Hn & Hl & ->).
  replace (i + p - i) with p by lia.
  replace (i + p + n - i) with (p + n) by lia.
  rewrite IH by (rewrite length_skipn; lia).
  cbn [expand flat_map]. rewrite app_nil_r. reflexivity.
Qed.

Lemma squeeze_dedup c s : squeeze c s = dedup_run c s.
Proof. unfold squeeze, sub. apply sub_go_squeeze. lia. Qed.

(** *** Removals *)

Lemma remove_char (c : char) (s : pystr) :
  remove [c] s = filter (fun x => negb (x =? c)%N) s.
Proof.
  unfold remove, replace, replace_count.
  induction s as [|x s IH]; [reflexivity|].
  cbn [replace_go filter budget_left startswith andb length Nat.sub budget_dec option_map app].
  rewrite andb_true_r. destruct (x =? c)%N; cbn [negb]; rewrite IH; reflexivity.
Qed.

Lemma replace_go_nil_In (old : pystr) (x : char) : forall s b k,
  In x (replace_go old [] b k s) -> In x s.
Proof.
  induction s as [|y s IH]; intros b k; [tauto|].
  cbn [replace_go]. destruct k as [|k].
  - destruct (budget_left b && startswith (y :: s) old).
    + cbn [app]. intros H. right. exact (IH _ _ H).
    + intros [->|H]; [left; reflexivity | right; exact (IH _ _ H)].
  - intros H. right. exact (IH _ _ H).
Qed.

Lemma remove_In (old : pystr) (x : char) (s : pystr) :
  old <> [] -> In x (remove old s) -> In x s.
Proof.
  intros Hne. unfold remove, replace, replace_count.
  destruct old; [congruence|]. apply replace_go_nil_In.
Qed.

Lemma remove_char_not_In (c : char) (s : pystr) : ~ In c (remove [c] s).
Proof.
  rewrite remove_char. intros H. apply filter_In in H as [_ H].
  rewrite N.eqb_refl in H. discriminate.
Qed.

Lemma remove_absent (c : char) (old new s : pystr) :
  ~ In c s -> replace (c :: old) new s = s.
Proof.
  unfold replace, replace_count.
  induction s as [|x s IH]; intros H; [reflexivity|].
  cbn [replace_go startswith].
  destruct (x =? c)%N eqn:E.
  - apply N.eqb_eq in E. subst. exfalso. apply H. left. reflexivity.
  - cbn [andb]. rewrite andb_false_r. rewrite IH; [reflexivity|].
    intros Hin. apply H. right. exact Hin.
Qed.

Lemma strip_noise_eq (s : pystr) :
  strip_noise s
  = remove [125%N] (remove [123%N] (remove [65289%N] (remove [65288%N]
      (remove [12305%N] (remove [12304%N] (remove [93%N] (remove [91%N]
        (remove [24180%N] (remove [21028%N] (remove [21028%N; 20915%N]
          (remove [44%N] (remove [65292%N] (remove [32%N] s))))))))))))).
Proof. reflexivity. Qed.

Ltac peel H :=
  first [ exact (remove_char_not_In _ _ H)
        | apply remove_In in H; [peel H | discriminate] ].

Lemma strip_noise_clean (s : pystr) : clean (strip_noise s).
Proof.
  intros x Hx Hin. rewrite strip_noise_eq in Hin.
  vm_compute in Hx.
  repeat (destruct Hx as [<-|Hx]; [peel Hin|]). exact Hx.
Qed.

Lemma clean_absent (s : pystr) (c : char) :
  clean s -> In c noise -> ~ In c s.
Proof. intros H Hc. exact (H c Hc). Qed.

Lemma strip_noise_fixed (s : pystr) : clean s -> strip_noise s = s.
Proof.
  intros H. rewrite strip_noise_eq. unfold remove.
  repeat (rewrite remove_absent with (s := s)
            by (apply (clean_absent s _ H); vm_compute; tauto)).
  reflexivity.
Qed.

(** *** Runs of one character *)

Lemma dedup_run_cons c x s :
  dedup_run c (x :: s)
  = if (x =? c)%N && starts_with_char c s then dedup_run c s
    else x :: dedup_run c s.
Proof. reflexivity. Qed.

Lemma dedup_run_keeps_head c : forall s y,
  exists t, dedup_run c (y :: s) = y :: t.
Proof.
  induction s as [|z s IH]; intros y.
  - exists []. apply dedup_run_single.
  - rewrite dedup_run_cons. cbn [starts_with_char].
    destruct (y =? c)%N eqn:Ey; destruct (z =? c)%N eqn:Ez; cbn [andb];
      try (eexists; reflexivity).
    apply N.eqb_eq in Ey, Ez. subst. apply IH.
Qed.

Lemma starts_with_char_dedup a c s :
  starts_with_char a (dedup_run c s) = starts_with_char a s.
Proof.
  destruct s as [|y s]; [reflexivity|].
  destruct (dedup_run_keeps_head c s y) as [t ->]. reflexivity.
Qed.

Lemma dedup_run_fixed c : forall s, adjacent c s = false -> dedup_run c s = s.
Proof.
  induction s as [|x s IH]; [reflexivity|].
  cbn [adjacent]. intros H. apply orb_false_iff in H as [H1 H2].
  rewrite dedup_run_cons, H1, IH by exact H2. reflexivity.
Qed.

Lemma adjacent_dedup_other a c : forall s,
  adjacent a s = false -> adjacent a (dedup_run c s) = false.
Proof.
  induction s as [|x s IH]; [reflexivity|].
  cbn [adjacent]. intros H. apply orb_false_iff in H as [H1 H2].
  rewrite dedup_run_cons.
  destruct ((x =? c)%N && starts_with_char c s); [apply IH; exact H2|].
  cbn [adjacent]. rewrite starts_with_char_dedup, H1, IH by exact H2.
  reflexivity.
Qed.

Lemma adjacent_dedup c : forall s, adjacent c (dedup_run c s) = false.
Proof.
  induction s as [|x s IH]; [reflexivity|].
  rewrite dedup_run_cons.
  destruct ((x =? c)%N && starts_with_char c s) eqn:E; [exact IH|].
  cbn [adjacent]. rewrite starts_with_char_dedup, E, IH. reflexivity.
Qed.

Lemma dedup_run_In c x : forall s, In x (dedup_run c s) -> In x s.
Proof.
  induction s as [|y s IH]; [tauto|].
  rewrite dedup_run_cons.
  destruct ((y =? c)%N && starts_with_char c s).
  - intros H. right. exact (IH H).
  - intros [->|H]; [left; reflexivity | right; exact (IH H)].
Qed.

Lemma adjacent_absent c : forall s, ~ In c s -> adjacent c s = false.
Proof.
  induction s as [|x s IH]; [reflexivity|].
  intros H. cbn [adjacent].
  replace (x =? c)%N with false.
  - cbn [andb orb]. apply IH. intros Hin. apply H. right. exact Hin.
  - symmetry. apply N.eqb_neq. intros ->. apply H. left. reflexivity.
Qed.

Lemma adjacent_app c x : forall a b,
  adjacent c (a ++ x :: b) = adjacent c (a ++ [x]) || adjacent c (x :: b).
Proof.
  induction a as [|y a IH]; intros b.
  - cbn [app adjacent starts_with_char]. rewrite andb_false_r. reflexivity.
  - cbn [app adjacent]. rewrite IH.
    replace (starts_with_char c (a ++ x :: b))
      with (starts_with_char c (a ++ [x])) by (destruct a; reflexivity).
    rewrite orb_assoc. reflexivity.
Qed.

Lemma adjacent_skipn c : forall n s,
  adjacent c s = false -> adjacent c (skipn n s) = false.
Proof.
  induction n as [|n IH]; intros s H; [exact H|].
  destruct s as [|x s]; [reflexivity|].
  cbn [skipn]. apply IH. cbn [adjacent] in H.
  apply orb_false_iff in H. tauto.
Qed.

(** *** [index] and [rindex] *)

Lemma contains_char c s : contains [c] s = true <-> In c s.
Proof.
  induction s as [|x s IH]; cbn [contains startswith In].
  - split; [discriminate | tauto].
  - rewrite orb_true_iff, andb_true_r, N.eqb_eq, IH. tauto.
Qed.

Lemma contains_char_false c s : contains [c] s = false <-> ~ In c s.
Proof.
  rewrite <- contains_char. destruct (contains [c] s); split; congruence.
Qed.

Lemma index_Some c : forall s n,
  index c s = Some n ->
  s = firstn n s ++ c :: skipn (S n) s /\ ~ In c (firstn n s)
  /\ length (firstn n s) = n.
Proof.
  induction s as [|x s IH]; intros n; [discriminate|].
  cbn [index]. destruct (x =? c)%N eqn:E.
  - intros [= <-]. apply N.eqb_eq in E. subst. simpl. tauto.
  - destruct (index c s) as [k|] eqn:Ei; [|discriminate].
    intros [= <-]. destruct (IH k eq_refl) as (H1 & H2 & H3).
    cbn [firstn skipn app length]. split; [f_equal; exact H1|].
    split; [|f_equal; exact H3].
    intros [->|H]; [rewrite N.eqb_refl in E; discriminate | exact (H2 H)].
Qed.

Lemma index_None c : forall s, index c s = None -> ~ In c s.
Proof.
  induction s as [|x s IH]; [tauto|].
  cbn [index]. destruct (x =? c)%N eqn:E; [discriminate|].
  destruct (index c s); [discriminate|]. intros _ [->|H].
  - rewrite N.eqb_refl in E. discriminate.
  - exact (IH eq_refl H).
Qed.

Lemma rindex_Some c : forall s n,
  rindex c s = Some n ->
  s = firstn n s ++ c :: skipn (S n) s /\ ~ In c (skipn (S n) s)
  /\ length (firstn n s) = n.
Proof.
  induction s as [|x s IH]; intros n; [discriminate|].
  cbn [rindex]. destruct (rindex c s) as [k|] eqn:Er.
  - intros [= <-]. destruct (IH k eq_refl) as (H1 & H2 & H3).
    cbn [firstn skipn app length]. split; [f_equal; exact H1|].
    split; [exact H2 | f_equal; exact H3].
  - destruct (x =? c)%N eqn:E; [|discriminate].
    intros [= <-]. apply N.eqb_eq in E. subst. cbn [firstn skipn app].
    split; [reflexivity|]. split; [|reflexivity].
    clear IH. induction s as [|y s IH]; [tauto|].
    cbn [rindex] in Er. destruct (rindex c s); [discriminate|].
    destruct (y =? c)%N eqn:E; [discriminate|].
    intros [->|H]; [rewrite N.eqb_refl in E; discriminate | exact (IH eq_refl H)].
Qed.

Lemma rindex_None c : forall s, rindex c s = None -> ~ In c s.
Proof.
  induction s as [|x s IH]; [tauto|].
  cbn [rindex]. destruct (rindex c s); [discriminate|].
  destruct (x =? c)%N eqn:E; [discriminate|]. intros _ [->|H].
  - rewrite N.eqb_refl in E. discriminate.
  - exact (IH eq_refl H).
Qed.

Lemma index_app c : forall a b, ~ In c a -> index c (a ++ c :: b) = Some (length a).
Proof.
  induction a as [|x a IH]; intros b H.
  - cbn [app index]. rewrite N.eqb_refl. reflexivity.
  - cbn [app index length].
    replace (x =? c)%N with false
      by (symmetry; apply N.eqb_neq; intros ->; apply H; left; reflexivity).
    rewrite IH; [reflexivity|]. intros Hin. apply H. right. exact Hin.
Qed.

Lemma rindex_absent c : forall s, ~ In c s -> rindex c s = None.
Proof.
  intros s H. destruct (rindex c s) eqn:E; [|reflexivity].
  exfalso. apply rindex_Some in E as (E & _ & _).
  apply H. rewrite E. apply in_or_app. right. left. reflexivity.
Qed.

Lemma rindex_app c : forall a b, ~ In c b -> rindex c (a ++ c :: b) = Some (length a).
Proof.
  induction a as [|x a IH]; intros b H.
  - cbn [app rindex]. rewrite rindex_absent by exact H.
    rewrite N.eqb_refl. reflexivity.
  - cbn [app rindex length]. rewrite IH by exact H. reflexivity.
Qed.

(** *** The bracket pair *)

Lemma one_pair_ordered (s : pystr) (first_open last_close : nat) :
  index lparen s = Some first_open -> rindex rparen s = Some last_close ->
  first_open < last_close -> one_pair s = s.
Proof.
  intros Hi Hr Hlt. unfold one_pair. rewrite Hi, Hr.
  destruct (index_Some _ _ _ Hi) as (E1 & _ & L1).
  destruct (rindex_Some _ _ _ Hr) as (E2 & _ & L2).
  assert (C1 : contains [lparen] s = true).
  { apply contains_char. rewrite E1. apply in_or_app. right. left. reflexivity. }
  assert (C2 : contains [rparen] s = true).
  { apply contains_char. rewrite E2. apply in_or_app. right. left. reflexivity. }
  rewrite C1, C2. cbn [andb]. unfold upto, slice, from.
  assert (S2 : skipn last_close s = rparen :: skipn (last_close + 1) s).
  { rewrite E2 at 1. rewrite skipn_app, L2, Nat.sub_diag.
    rewrite skipn_all2 by lia. rewrite Nat.add_1_r. reflexivity. }
  assert (S1 : skipn first_open s = lparen :: skipn (first_open + 1) s).
  { rewrite E1 at 1. rewrite skipn_app, L1, Nat.sub_diag.
    rewrite skipn_all2 by lia. rewrite Nat.add_1_r. reflexivity. }
  transitivity (firstn first_open s ++ skipn first_open s);
    [|apply firstn_skipn].
  f_equal. rewrite S1. cbn [app]. f_equal.
  transitivity (firstn (last_close - (first_open + 1))
                  (skipn (first_open + 1) s)
                ++ skipn (last_close - (first_open + 1))
                     (skipn (first_open + 1) s));
    [|apply firstn_skipn].
  f_equal. rewrite skipn_skipn.
  replace (last_close - (first_open + 1) + (first_open + 1)) with last_close
    by lia.
  rewrite S2. reflexivity.
Qed.

Lemma clean_lparen : ~ In lparen noise.
Proof. vm_compute. intuition discriminate. Qed.

Lemma clean_rparen : ~ In rparen noise.
Proof. vm_compute. intuition discriminate. Qed.

Lemma In_index c s : In c s -> exists n, index c s = Some n.
Proof.
  intros H. destruct (index c s) eqn:E; [eexists; reflexivity|].
  exfalso. exact (index_None _ _ E H).
Qed.

Lemma In_rindex c s : In c s -> exists n, rindex c s = Some n.
Proof.
  intros H. destruct (rindex c s) eqn:E; [eexists; reflexivity|].
  exfalso. exact (rindex_None _ _ E H).
Qed.

Lemma one_pair_absent s :
  ~ In lparen s -> ~ In rparen s -> one_pair s = s.
Proof.
  intros H1 H2. unfold one_pair.
  apply contains_char_false in H1, H2. rewrite H1, H2. reflexivity.
Qed.

Lemma starts_with_char_In c s : starts_with_char c s = true -> In c s.
Proof.
  destruct s as [|y s]; [discriminate|]. cbn. intros H.
  apply N.eqb_eq in H. left. exact H.
Qed.

Lemma starts_with_char_absent c s : ~ In c s -> starts_with_char c s = false.
Proof.
  intros H. destruct (starts_with_char c s) eqn:E; [|reflexivity].
  exfalso. exact (H (starts_with_char_In _ _ E)).
Qed.

Lemma In_firstn (x : char) (n : nat) (l : pystr) : In x (firstn n l) -> In x l.
Proof.
  intros H. rewrite <- (firstn_skipn n l). apply in_or_app. left. exact H.
Qed.

Lemma In_skipn (x : char) (n : nat) (l : pystr) : In x (skipn n l) -> In x l.
Proof.
  intros H. rewrite <- (firstn_skipn n l). apply in_or_app. right. exact H.
Qed.

Lemma one_pair_normal (t : pystr) :
  clean t -> adjacent lparen t = false -> adjacent rparen t = false ->
  normal (one_pair t).
Proof.
  intros Hc Hl Hr.
  destruct (contains [lparen] t) eqn:C1; destruct (contains [rparen] t) eqn:C2.
  - (* both kinds of bracket *)
    destruct (In_index _ _ (proj1 (contains_char _ _) C1)) as [fo Hi].
    destruct (In_rindex _ _ (proj1 (contains_char _ _) C2)) as [lc Hri].
    destruct (index_Some _ _ _ Hi) as (E1 & N1 & L1).
    destruct (rindex_Some _ _ _ Hri) as (E2 & N2 & L2).
    destruct (Nat.lt_trichotomy fo lc) as [Hlt|[Heq|Hgt]].
    + rewrite (one_pair_ordered t fo lc Hi Hri Hlt).
      repeat split; try assumption. exact (one_pair_ordered t fo lc Hi Hri Hlt).
    + exfalso. subst lc.
      assert (S1 : skipn fo t = lparen :: skipn (S fo) t).
      { rewrite E1 at 1. rewrite skipn_app, L1, Nat.sub_diag.
        rewrite skipn_all2 by lia. reflexivity. }
      assert (S2 : skipn fo t = rparen :: skipn (S fo) t).
      { rewrite E2 at 1. rewrite skipn_app, L2, Nat.sub_diag.
        rewrite skipn_all2 by lia. reflexivity. }
      rewrite S1 in S2. discriminate.
    + assert (Ew : one_pair t
                   = firstn fo t ++ lparen :: rparen :: skipn (lc + 1) t).
      { unfold one_pair. rewrite C1, C2, Hi, Hri. cbn [andb].
        unfold upto, slice, from.
        replace (lc - (fo + 1)) with 0 by lia. reflexivity. }
      rewrite Ew. set (A := firstn fo t) in *. set (B := skipn (lc + 1) t) in *.
      assert (NB : ~ In rparen B) by (unfold B; rewrite Nat.add_1_r; exact N2).
      assert (HA : forall c, adjacent c t = false -> adjacent c (A ++ [lparen]) = false).
      { intros c H. rewrite E1, adjacent_app in H.
        apply orb_false_iff in H. tauto. }
      repeat split.
      * intros x Hx Hin. apply in_app_or in Hin as [Hin|[<-|[<-|Hin]]].
        -- apply (Hc x Hx). unfold A in Hin. exact (In_firstn _ _ _ Hin).
        -- exact (clean_lparen Hx).
        -- exact (clean_rparen Hx).
        -- apply (Hc x Hx). unfold B in Hin.
           exact (In_skipn _ _ _ Hin).
      * rewrite adjacent_app, (HA _ Hl). cbn [adjacent starts_with_char orb].
        change (rparen =? lparen)%N with false. cbn [andb orb].
        unfold B. apply adjacent_skipn. exact Hl.
      * rewrite adjacent_app, (HA _ Hr). cbn [adjacent starts_with_char orb].
        change (lparen =? rparen)%N with false. cbn [andb orb].
        rewrite (starts_with_char_absent _ _ NB), (adjacent_absent _ _ NB).
        rewrite andb_false_r. reflexivity.
      * apply (one_pair_ordered _ (length A) (length (A ++ [lparen]))).
        -- apply index_app. exact N1.
        -- change (A ++ lparen :: rparen :: B)
             with (A ++ [lparen] ++ rparen :: B).
           rewrite app_assoc. apply rindex_app. exact NB.
        -- rewrite length_app. simpl. lia.
  - (* only opening brackets *)
    assert (Ew : one_pair t = remove [lparen] t).
    { unfold one_pair. rewrite C1, C2. reflexivity. }
    rewrite Ew.
    assert (N1 : ~ In lparen (remove [lparen] t)) by apply remove_char_not_In.
    assert (N2 : ~ In rparen (remove [lparen] t)).
    { intros H. apply remove_In in H; [|discriminate].
      apply contains_char_false in C2. exact (C2 H). }
    repeat split.
    + intros x Hx Hin. apply remove_In in Hin; [|discriminate].
      exact (Hc x Hx Hin).
    + apply adjacent_absent. exact N1.
    + apply adjacent_absent. exact N2.
    + apply one_pair_absent; assumption.
  - (* only closing brackets *)
    assert (Ew : one_pair t = remove [rparen] t).
    { unfold one_pair. rewrite C1, C2. reflexivity. }
    rewrite Ew.
    assert (N2 : ~ In rparen (remove [rparen] t)) by apply remove_char_not_In.
    assert (N1 : ~ In lparen (remove [rparen] t)).
    { intros H. apply remove_In in H; [|discriminate].
      apply contains_char_false in C1. exact (C1 H). }
    repeat split.
    + intros x Hx Hin. apply remove_In in Hin; [|discriminate].
      exact (Hc x Hx Hin).
    + apply adjacent_absent. exact N1.
    + apply adjacent_absent. exact N2.
    + apply one_pair_absent; assumption.
  - (* no bracket *)
    apply contains_char_false in C1, C2.
    rewrite (one_pair_absent t C1 C2).
    repeat split; try assumption. apply one_pair_absent; assumption.
Qed.

Lemma preprocess_normal (x : pystr) : normal (preprocess_case_num x).
Proof.
  unfold preprocess_case_num. rewrite !squeeze_dedup.
  apply one_pair_normal.
  - intros c Hc Hin. apply dedup_run_In, dedup_run_In in Hin.
    exact (strip_noise_clean x c Hc Hin).
  - apply adjacent_dedup_other, adjacent_dedup.
  - apply adjacent_dedup.
Qed.

Lemma preprocess_fixed (w : pystr) : normal w -> preprocess_case_num w = w.
Proof.
  intros (Hc & Hl & Hr & Ho). unfold preprocess_case_num.
  rewrite (strip_noise_fixed w Hc), !squeeze_dedup.
  rewrite (dedup_run_fixed _ _ Hl), (dedup_run_fixed _ _ Hr). exact Ho.
Qed.

Lemma preprocess_case_num_idempotent (x : pystr) :
  preprocess_case_num (preprocess_case_num x) = preprocess_case_num x.
Proof. apply preprocess_fixed, preprocess_normal. Qed.

(** *** The consumption-restriction profile *)

Lemma replace_char (c d : char) (s : pystr) :
  replace [c] [d] s = List.map (fun x => if (x =? c)%N then d else x) s.
Proof.
  unfold replace, replace_count.
  induction s as [|x s IH]; [reflexivity|].
  cbn [replace_go List.map budget_left startswith andb length Nat.sub budget_dec option_map app].
  rewrite andb_true_r. destruct (x =? c)%N; rewrite IH; reflexivity.
Qed.

Lemma preprocess_xzgxf_eq (s : pystr) :
  preprocess_xzgxf_case_num s = List.map widen (filter not_space s).
Proof.
  unfold preprocess_xzgxf_case_num.
  change (u " ") with [32%N]. change (u "[") with [91%N].
  change (u "]") with [93%N]. change (u "【") with [12304%N].
  change (u "】") with [12305%N]. change (u "(") with [40%N].
  change (u ")") with [41%N]. change (u "（") with [65288%N].
  change (u "）") with [65289%N].
  rewrite remove_char, !replace_char, !map_map. reflexivity.
Qed.

Ltac split_on x :=
  repeat match goal with
  | |- context [(x =? ?k)%N] =>
    let E := fresh "E" in
    destruct (x =? k)%N eqn:E;
    [apply N.eqb_eq in E; subst x; vm_compute; reflexivity | simpl]
  end.

Lemma widen_widen (x : char) : widen (widen x) = widen x.
Proof. unfold widen. split_on x. rewrite ?E, ?E0, ?E1, ?E2, ?E3, ?E4. reflexivity. Qed.

Lemma widen_not_space (x : char) : not_space x = true -> not_space (widen x) = true.
Proof. unfold widen. split_on x. tauto. Qed.

Lemma filter_map_all (f : char -> bool) (g : char -> char) (l : pystr) :
  (forall y, In y l -> f (g y) = true) -> filter f (List.map g l) = List.map g l.
Proof.
  induction l as [|y l IH]; intros H; [reflexivity|].
  cbn [List.map filter]. rewrite (H y (or_introl eq_refl)).
  rewrite IH; [reflexivity|]. intros z Hz. apply H. right. exact Hz.
Qed.

Lemma preprocess_xzgxf_idempotent (x : pystr) :
  preprocess_xzgxf_case_num (preprocess_xzgxf_case_num x)
  = preprocess_xzgxf_case_num x.
Proof.
  rewrite !preprocess_xzgxf_eq.
  rewrite filter_map_all.
  - rewrite map_map. apply map_ext. apply widen_widen.
  - intros y Hy. apply filter_In in Hy as [_ Hy]. apply widen_not_space. exact Hy.
Qed.

(** C8. Normalising twice is normalising once, for the standard profile
    [preprocess_case_num] and for the consumption-restriction profile
    [preprocess_xzgxf_case_num]. *)
Theorem normalize_idempotent (x : pystr) :
  preprocess_case_num (preprocess_case_num x) = preprocess_case_num x
  /\ preprocess_xzgxf_case_num (preprocess_xzgxf_case_num x)
     = preprocess_xzgxf_case_num x.
Proof.
  split; [apply preprocess_case_num_idempotent|].
  apply preprocess_xzgxf_idempotent.
Qed.

(** *** [correct_case_num] *)



























End CaseNumFacts.
